(** * A verified model of the [route] URL router

    The router of [route.go] is a tree of [Router] nodes linked by pointers
    and extended in place by [Route]; [lookup] walks the tree against the
    slash-separated components of a request path and records captures in a
    map supplied by the caller.

    The embedding keeps the pointer structure: nodes live in a store and
    refer to each other by address, every method is a computation in a
    state-and-panic monad over that store, and the capture map is the
    second component of the state, since every recursive call of [lookup]
    receives the same Go map. *)

From Stdlib Require Import Ascii String.
From stdpp Require Import gmap strings list fin_maps.

Local Open Scope string_scope.

(** ** Go strings

    A Go string is a sequence of bytes, as is a Rocq [string].  The two
    functions below model [strings.Split] and [strings.Join] of Go's
    standard library; the router only ever calls them with the separator
    ["/"], [Split] takes the separator as one byte. *)

Fixpoint strings_Split (sep : ascii) (s : string) : list string :=
  match s with
  | EmptyString => [EmptyString]
  | String c s' =>
      if Ascii.eqb c sep then EmptyString :: strings_Split sep s'
      else match strings_Split sep s' with
           | [] => [String c EmptyString]
           | x :: xs => String c x :: xs
           end
  end.

Fixpoint strings_Join (elems : list string) (sep : string) : string :=
  match elems with
  | [] => ""
  | [x] => x
  | x :: xs => x +:+ sep +:+ strings_Join xs sep
  end.

(** [len(part) > 0 && part[0] == ':'], returning the name [part[1:]]. *)
Definition varPart (part : string) : option string :=
  match part with
  | String ":" name => Some name
  | _ => None
  end.

(** A component that [route] files under [matchers]: neither a variable
    nor the wildcard. *)
Definition literalPart (part : string) : bool :=
  match varPart part with
  | Some _ => false
  | None => negb (String.eqb part "*")
  end.

(** ** Panics

    The values the code panics with, and the run-time panics of Go that
    the modelled statements can raise. *)

Inductive panic : Type :=
  | BadPath                               (* panic("bad path") *)
  | DuplicateHandler                      (* panic("duplicate handler") *)
  | OverlappingVars (old new : string)    (* log.Panicf("overlapping vars: %q / %q", ..) *)
  | OverlappingFallback                   (* log.Panicf("overlapping fallback routes") *)
  | NilDeref                              (* field access through an invalid *Router *)
  | NilMapWrite                           (* assignment to an entry of a nil map *)
  | IndexOutOfRange.                      (* path[0] on the empty string *)

Inductive result (A : Type) : Type :=
  | Ok (a : A)
  | Panic (e : panic).
Arguments Ok {A} a.
Arguments Panic {A} e.

(** A [*Router] is an address in the store; a nullable pointer field is an
    [option]. *)
Definition loc := nat.

Section Route.

(** Values of Go's function type [handler]; a nil function is [None] in a
    field of type [option Handler]. *)
Context {Handler : Type}.

(** ** The node type *)

Record Router : Type := mkRouter {
  matchers : option (gmap string loc);   (* nil until the first literal child *)
  varName : string;
  varRouter : option loc;
  handler : option Handler;
  fallbackRouter : option loc
}.

(** [&Router{}] points to the zero value. *)
Definition zeroRouter : Router := mkRouter None "" None None None.

(** ** The state: the store of nodes and the caller's capture map

    [env] is [None] for a nil map (the tests pass one), which can be read
    but not written. *)

Record heap : Type := mkHeap {
  routers : list Router;
  env : option (gmap string string)
}.

Definition M (A : Type) : Type := heap → result A * heap.

Definition ret {A} (a : A) : M A := λ s, (Ok a, s).

Definition bind {A B} (m : M A) (f : A → M B) : M B :=
  λ s, match m s with
       | (Ok a, s') => f a s'
       | (Panic e, s') => (Panic e, s')
       end.

Definition throw {A} (e : panic) : M A := λ s, (Panic e, s).

#[global] Instance M_ret : MRet M := @ret.
#[global] Instance M_bind : MBind M := λ A B f m, bind m f.

(** Reading a field through [r]. *)
Definition deref (r : loc) : M Router :=
  λ s, match routers s !! r with
       | Some R => (Ok R, s)
       | None => (Panic NilDeref, s)
       end.

(** Assigning fields through [r]. *)
Definition update (r : loc) (f : Router → Router) : M unit :=
  λ s, match routers s !! r with
       | Some R => (Ok tt, mkHeap (<[r := f R]> (routers s)) (env s))
       | None => (Panic NilDeref, s)
       end.

(** [&Router{}] *)
Definition alloc : M loc :=
  λ s, (Ok (length (routers s)), mkHeap (routers s ++ [zeroRouter]) (env s)).

(** [env[k] = v] *)
Definition env_set (k v : string) : M unit :=
  λ s, match env s with
       | Some m => (Ok tt, mkHeap (routers s) (Some (<[k := v]> m)))
       | None => (Panic NilMapWrite, s)
       end.

Definition set_matchers (m : gmap string loc) (R : Router) : Router :=
  mkRouter (Some m) (varName R) (varRouter R) (handler R) (fallbackRouter R).
Definition set_var (name : string) (v : loc) (R : Router) : Router :=
  mkRouter (matchers R) name (Some v) (handler R) (fallbackRouter R).
Definition set_handler (f : option Handler) (R : Router) : Router :=
  mkRouter (matchers R) (varName R) (varRouter R) f (fallbackRouter R).
Definition set_fallbackRouter (w : loc) (R : Router) : Router :=
  mkRouter (matchers R) (varName R) (varRouter R) (handler R) (Some w).

(** ** [lookup] (route.go, lines 56-85) *)

Fixpoint lookup (r : loc) (path : list string) {struct path} : M (option Handler) :=
  match path with
  | [] =>
      (* Empty path => we've matched on this router exactly. *)
      R ← deref r;
      mret (handler R)
  | seg :: rest =>
      R ← deref r;
      lit ← match matchers R with
            | Some m =>
                match m !! seg with
                | Some r2 => lookup r2 rest
                | None => mret None
                end
            | None => mret None
            end;
      match lit with
      | Some h => mret (Some h)
      | None =>
          R ← deref r;
          var ← (if bool_decide (seg ≠ "") then
                   match varRouter R with
                   | Some v => env_set (varName R) seg;; lookup v rest
                   | None => mret None
                   end
                 else mret None);
          match var with
          | Some h => mret (Some h)
          | None =>
              R ← deref r;
              match fallbackRouter R with
              | Some w =>
                  env_set "*" (strings_Join path "/");;
                  W ← deref w;
                  mret (handler W)
              | None => mret None
              end
          end
      end
  end.

(** ** The alternatives of the specification (section 4.2, step 2)

    The specification describes [lookup] on a non-empty path as three
    alternatives tried in order on the node, each only when the previous
    one produced no handler.  They are written here from its words, over
    the node [R] read once on entry. *)

(** "try branches in this fixed precedence order, each only on failure of
    the previous" *)
Definition orElse (a b : M (option Handler)) : M (option Handler) :=
  x ← a;
  match x with
  | Some h => mret (Some h)
  | None => b
  end.

(** 2a: the literal child for the head segment, entered with the remaining
    segments. *)
Definition literalAlt (R : Router) (seg : string) (rest : list string) : M (option Handler) :=
  match matchers R ≫= (.!! seg) with
  | Some r2 => lookup r2 rest
  | None => mret None
  end.

(** 2b: the variable child, only for a non-empty head segment, which is
    bound to the variable's name first. *)
Definition variableAlt (R : Router) (seg : string) (rest : list string) : M (option Handler) :=
  if decide (seg = "") then mret None
  else match varRouter R with
       | Some v => env_set (varName R) seg;; lookup v rest
       | None => mret None
       end.

(** 2c: the wildcard child, whose own handler is the answer once ["*"] is
    bound to the remaining segments rejoined. *)
Definition wildcardAlt (R : Router) (path : list string) : M (option Handler) :=
  match fallbackRouter R with
  | Some w =>
      env_set "*" (strings_Join path "/");;
      W ← deref w;
      mret (handler W)
  | None => mret None
  end.

(** ** [lookupPath] (lines 89-95) *)

Definition lookupPath (r : loc) (path : string) : M (option Handler) :=
  match path with
  | EmptyString => throw IndexOutOfRange
  | String c path' =>
      if Ascii.eqb c "/" then lookup r (strings_Split "/" path')
      else throw BadPath
  end.

(** ** [ServeHTTP] (lines 98-105), up to the choice of the handler: the
    request gets a fresh capture map, and [None] stands for
    [http.NotFound]. *)

Definition ServeHTTP (r : loc) (path : string) : M (option Handler) :=
  λ s, lookupPath r path (mkHeap (routers s) (Some ∅)).

(** ** [route] (lines 107-139) *)

Fixpoint route (r : loc) (parts : list string) {struct parts} : M loc :=
  match parts with
  | [] => mret r
  | part :: rest =>
      match varPart part with
      | Some name =>
          R ← deref r;
          if bool_decide (varName R ≠ "") && bool_decide (name ≠ varName R)
          then throw (OverlappingVars (varName R) name)
          else
            R ← deref r;
            v ← match varRouter R with
                | None => n ← alloc; update r (set_var name n);; mret n
                | Some v => mret v
                end;
            route v rest
      | None =>
          if String.eqb part "*" then
            R ← deref r;
            match fallbackRouter R with
            | Some _ => throw OverlappingFallback
            | None =>
                n ← alloc;
                update r (set_fallbackRouter n);;
                mret n
            end
          else
            R ← deref r;
            m ← match matchers R with
                | None => update r (set_matchers ∅);; mret ∅
                | Some m => mret m
                end;
            c ← match m !! part with
                | None => n ← alloc; update r (set_matchers (<[part := n]> m));; mret n
                | Some c => mret c
                end;
            route c rest
      end
  end.

(** ** [Route] (lines 151-157) *)

Definition Route (r : loc) (path : string) : M loc :=
  let path := match path with
              | String "/" path' => path'
              | _ => path
              end in
  route r (strings_Split "/" path).

(** ** [FuncE] (lines 161-166) *)

Definition FuncE (r : loc) (f : option Handler) : M unit :=
  R ← deref r;
  match handler R with
  | Some _ => throw DuplicateHandler
  | None => update r (set_handler f)
  end.

(** The specification's [Register(tree, path, h)], which the tests write
    [r.Route(path).FuncE(h)]. *)
Definition Register (r : loc) (path : string) (h : Handler) : M unit :=
  n ← Route r path;
  FuncE n (Some h).

(** ** Shape of the store

    [litEdge s r part c]: in [s], node [r] has the literal child [c] under
    [part].  [litChain s r parts n]: following the literal children named
    by [parts] from [r] ends in [n]. *)

Definition litEdge (s : heap) (r : loc) (part : string) (c : loc) : Prop :=
  ∃ R m, routers s !! r = Some R ∧ matchers R = Some m ∧ m !! part = Some c.

Fixpoint litChain (s : heap) (r : loc) (parts : list string) (n : loc) : Prop :=
  match parts with
  | [] => r = n
  | part :: rest => ∃ c, litEdge s r part c ∧ litChain s c rest n
  end.

(** [grows s s1]: [s1] has the capture map of [s], at least its nodes and
    all its literal children; what [route] and [FuncE] do to a store. *)
Definition grows (s s1 : heap) : Prop :=
  env s1 = env s
  ∧ (length (routers s) ≤ length (routers s1))%nat
  ∧ ∀ r part c, litEdge s r part c → litEdge s1 r part c.

(** Every pointer stored in a node is the address of a node. *)
Definition closedRouter (len : nat) (R : Router) : Prop :=
  (∀ m part c, matchers R = Some m → m !! part = Some c → (c < len)%nat)
  ∧ (∀ v, varRouter R = Some v → (v < len)%nat)
  ∧ (∀ w, fallbackRouter R = Some w → (w < len)%nat).

Definition closed (s : heap) : Prop :=
  Forall (closedRouter (length (routers s))) (routers s).

(** The components [Route] splits a path into: [path[1:]] when the path
    begins with a slash. *)
Definition stripSlash (path : string) : string :=
  match path with
  | String "/" path' => path'
  | _ => path
  end.

(** ** Children by kind, and what registration keeps

    [varEdge s r name v]: node [r] has the variable child [v] and accepts
    the name [name] for it.  [partEdge] is the child that [route] goes to
    for a component other than ["*"], and [routeChain] follows them. *)

Definition varEdge (s : heap) (r : loc) (name : string) (v : loc) : Prop :=
  ∃ R, routers s !! r = Some R ∧ varRouter R = Some v
       ∧ (varName R = "" ∨ varName R = name).

Definition partEdge (s : heap) (r : loc) (part : string) (c : loc) : Prop :=
  match varPart part with
  | Some name => varEdge s r name c
  | None => part ≠ "*" ∧ litEdge s r part c
  end.

Fixpoint routeChain (s : heap) (r : loc) (parts : list string) (n : loc) : Prop :=
  match parts with
  | [] => r = n
  | part :: rest => ∃ c, partEdge s r part c ∧ routeChain s c rest n
  end.

(** [nodeLe R R']: [R'] has the literal children of [R], and its variable
    child under the same name. *)
Definition nodeLe (R R' : Router) : Prop :=
  (∀ m part c, matchers R = Some m → m !! part = Some c →
     ∃ m', matchers R' = Some m' ∧ m' !! part = Some c)
  ∧ (∀ v, varRouter R = Some v → varRouter R' = Some v ∧ varName R' = varName R).

Definition storeLe (s s1 : heap) : Prop :=
  ∀ r R, routers s !! r = Some R → ∃ R', routers s1 !! r = Some R' ∧ nodeLe R R'.

(** ** What a lookup writes

    The writes of one lookup, in order, applied to a capture map. *)
Definition writeAll (m : gmap string string) (ws : list (string * string)) :
    gmap string string :=
  foldl (λ m kv, <[kv.1 := kv.2]> m) m ws.

(** [uniform c rs]: on the nodes [rs] and any non-nil capture map, [c]
    gives one result and makes one sequence of writes; on a nil map it
    gives that result when there is nothing to write and panics
    otherwise. *)
Definition uniform {A} (c : M A) (rs : list Router) : Prop :=
  ∃ res ws,
    (∀ m, c (mkHeap rs (Some m)) = (res, mkHeap rs (Some (writeAll m ws))))
    ∧ c (mkHeap rs None)
      = (match ws with [] => res | _ :: _ => Panic NilMapWrite end, mkHeap rs None).

(** ** A match, declaratively

    [Matches s r path n m m']: from node [r] the path leads to node [n]
    through literal children, through variable children where the node
    has no literal child for the component, and at last possibly through
    a wildcard child where the node has neither; the captures turn [m]
    into [m']. *)
Inductive Matches (s : heap) : loc → list string → loc →
    gmap string string → gmap string string → Prop :=
  | Matches_nil r m : Matches s r [] r m m
  | Matches_literal r seg rest c n m m' :
      litEdge s r seg c →
      Matches s c rest n m m' →
      Matches s r (seg :: rest) n m m'
  | Matches_variable r R seg rest v n m m' :
      routers s !! r = Some R →
      matchers R ≫= (.!! seg) = None →
      seg ≠ "" →
      varRouter R = Some v →
      Matches s v rest n (<[varName R := seg]> m) m' →
      Matches s r (seg :: rest) n m m'
  | Matches_wildcard r R seg rest w m :
      routers s !! r = Some R →
      matchers R ≫= (.!! seg) = None →
      seg = "" ∨ varRouter R = None →
      fallbackRouter R = Some w →
      Matches s r (seg :: rest) w m (<["*" := strings_Join (seg :: rest) "/"]> m).

(** ** A router with one literal route

    [sole s r parts n]: from [r] the only children are the literal
    children named by [parts], one under the other down to [n], and no
    node before [n] has a handler. *)
Fixpoint sole (s : heap) (r : loc) (parts : list string) (n : loc) : Prop :=
  match parts with
  | [] => r = n ∧ ∃ R, routers s !! r = Some R ∧ matchers R = None
                       ∧ varRouter R = None ∧ fallbackRouter R = None
  | part :: rest =>
      ∃ R c, routers s !! r = Some R ∧ matchers R = Some {[part := c]}
             ∧ varRouter R = None ∧ fallbackRouter R = None ∧ handler R = None
             ∧ sole s c rest n
  end.

(** [r := &Router{}] with no capture map yet. *)
Definition newRouter : heap := mkHeap [zeroRouter] None.

End Route.

Arguments Router : clear implicits.
Arguments heap : clear implicits.
Arguments M : clear implicits.


(** ** Routers of the test suite and of the package documentation

    Handlers are told apart by name. *)

Definition F1 : string := "F1".
Definition F2 : string := "F2".

(** [r.Route("/foo/*").FuncE(F1)] on a new router (TestFallback). *)
Definition fallbackTree : heap string :=
  (Register 0 "/foo/*" F1 newRouter).2.

(** A variable and a wildcard under the same node, given a fresh capture
    map. *)
Definition overlapTree : heap string :=
  let s := ((Register 0 "/foo/:id/x" F1;; Register 0 "/foo/*" F2) newRouter).2 in
  mkHeap (routers s) (Some ∅).

(** [r.Route("/foo/:id").FuncE(F1)] on a new router (TestVar). *)
Definition varTree : heap string :=
  (Register 0 "/foo/:id" F1 newRouter).2.

(** A wildcard beside a longer literal route: ["/a/*"] and ["/a/b/c"],
    given a fresh capture map. *)
Definition besideTree : heap string :=
  let s := ((Register 0 "/a/*" F1;; Register 0 "/a/b/c" F2) newRouter).2 in
  mkHeap (routers s) (Some ∅).

(** [r.Route("/foo/:")] on a new router. *)
Definition emptyNameTree : heap string :=
  (Route 0 "/foo/:" newRouter).2.

(** [r.Route("/a/*/b")] on a new router. *)
Definition afterWildcardTree : heap string :=
  (Route 0 "/a/*/b" newRouter).2.

(** Node [r] has the wildcard child [w]. *)
Definition wildEdge {Handler} (s : heap Handler) (r w : loc) : Prop :=
  ∃ R, routers s !! r = Some R ∧ fallbackRouter R = Some w.

(** * Properties *)

Section Properties.

Context {Handler : Type}.
Implicit Types (s : heap Handler) (R W : Router Handler) (r n c v w : loc).
Implicit Types (h : Handler) (path parts rest : list string) (seg part : string).

(** ** Running monadic code *)

Lemma run_bind {A B} (m : M Handler A) (f : A → M Handler B) s :
  (m ≫= f) s = match m s with
               | (Ok a, s') => f a s'
               | (Panic e, s') => (Panic e, s')
               end.
Proof. reflexivity. Qed.

Lemma bind_ext {A B} (m : M Handler A) (f g : A → M Handler B) s :
  (∀ a s', f a s' = g a s') → (m ≫= f) s = (m ≫= g) s.
Proof. intros E. rewrite !run_bind. destruct (m s) as [[a|e] s']; [apply E|done]. Qed.

Lemma run_ret {A} (a : A) s : (mret a : M Handler A) s = (Ok a, s).
Proof. reflexivity. Qed.

Lemma run_deref r s R : routers s !! r = Some R → deref r s = (Ok R, s).
Proof. intros E. unfold deref. by rewrite E. Qed.

Lemma run_deref_None r s : routers s !! r = None → deref r s = (Panic NilDeref, s).
Proof. intros E. unfold deref. by rewrite E. Qed.

Lemma deref_inv r s x s' :
  deref r s = (x, s') →
  s' = s ∧ (x = Panic NilDeref ∧ routers s !! r = None
            ∨ ∃ R, x = Ok R ∧ routers s !! r = Some R).
Proof.
  unfold deref. destruct (routers s !! r) as [R|]; intros [= <- <-]; eauto.
Qed.

Lemma env_set_routers k val s : routers (env_set k val s).2 = routers s.
Proof. unfold env_set. by destruct (env s). Qed.

(** ** [lookup] only reads the store of nodes *)

Lemma lookup_routers path : ∀ r s, routers (lookup r path s).2 = routers s.
Proof.
  induction path as [|seg rest IH]; intros r s; cbn [lookup].
  - rewrite run_bind. unfold deref. by destruct (routers s !! r).
  - rewrite run_bind. unfold deref at 1.
    destruct (routers s !! r) as [R|] eqn:Er; [|done].
    rewrite run_bind.
    set (lit := match matchers R with
                | Some m => match m !! seg with
                            | Some r2 => lookup r2 rest
                            | None => mret None
                            end
                | None => mret None
                end).
    assert (Hlit : routers (lit s).2 = routers s).
    { unfold lit. destruct (matchers R) as [m|]; [|done].
      destruct (m !! seg); [apply IH|done]. }
    destruct (lit s) as [[[h|]|e] s1]; simpl in Hlit; try by rewrite ?run_ret.
    rewrite run_bind. unfold deref at 1. rewrite Hlit, Er.
    rewrite run_bind.
    set (var := if bool_decide (seg ≠ "") then _ else _).
    assert (Hvar : routers (var s1).2 = routers s).
    { unfold var. case_bool_decide; [|done].
      destruct (varRouter R) as [v|]; [|done].
      rewrite run_bind. pose proof (env_set_routers (varName R) seg s1) as Hs.
      destruct (env_set (varName R) seg s1) as [[[]|e] s2]; simpl in Hs.
      - rewrite IH. congruence.
      - simpl. congruence. }
    destruct (var s1) as [[[h|]|e] s2]; simpl in Hvar; try by rewrite ?run_ret.
    rewrite run_bind. unfold deref at 1. rewrite Hvar, Er.
    destruct (fallbackRouter R) as [w|]; [|done].
    rewrite run_bind. pose proof (env_set_routers "*" (strings_Join (seg :: rest) "/") s2) as Hs.
    destruct (env_set _ _ s2) as [[[]|e] s3]; simpl in Hs; [|simpl; congruence].
    rewrite run_bind. unfold deref. destruct (routers s3 !! w); simpl; congruence.
Qed.

Lemma literalAlt_routers R seg rest s :
  routers (literalAlt R seg rest s).2 = routers s.
Proof.
  unfold literalAlt. destruct (matchers R) as [m|]; [|done]. simpl.
  destruct (m !! seg); [apply lookup_routers|done].
Qed.

Lemma variableAlt_routers R seg rest s :
  routers (variableAlt R seg rest s).2 = routers s.
Proof.
  unfold variableAlt. case_decide; [done|].
  destruct (varRouter R) as [v|]; [|done].
  rewrite run_bind. pose proof (env_set_routers (varName R) seg s) as Hs.
  destruct (env_set (varName R) seg s) as [[[]|e] s1]; simpl in Hs; [|done].
  by rewrite lookup_routers.
Qed.

(** On a non-empty path the code reads the node before each of its three
    blocks; as no block writes the store of nodes, it reads the same node
    three times, and the blocks are the alternatives of the
    specification. *)
Lemma lookup_cons r seg rest s :
  lookup r (seg :: rest) s =
  (R ← deref r;
   orElse (literalAlt R seg rest)
     (orElse (variableAlt R seg rest) (wildcardAlt R (seg :: rest)))) s.
Proof.
  cbn [lookup]. rewrite !run_bind.
  destruct (routers s !! r) as [R|] eqn:Er;
    [rewrite !(run_deref _ _ _ Er) | by rewrite !(run_deref_None _ _ Er)].
  unfold orElse at 1. rewrite !run_bind.
  replace (match matchers R with
           | Some m => match m !! seg with
                       | Some r2 => lookup r2 rest
                       | None => mret None
                       end
           | None => mret None
           end) with (literalAlt R seg rest)
    by (unfold literalAlt; destruct (matchers R) as [m|]; [simpl; by destruct (m !! seg)|done]).
  pose proof (literalAlt_routers R seg rest s) as H1.
  destruct (literalAlt R seg rest s) as [[[h|]|e] s1]; simpl in H1; try done.
  rewrite run_bind. unfold deref at 1. rewrite H1, Er.
  unfold orElse. rewrite !run_bind.
  replace (if bool_decide (seg ≠ "") then _ else _) with (variableAlt R seg rest)
    by (unfold variableAlt; case_bool_decide; case_decide; done).
  pose proof (variableAlt_routers R seg rest s1) as H2.
  destruct (variableAlt R seg rest s1) as [[[h|]|e] s2]; simpl in H2; try done.
  rewrite run_bind. unfold deref at 1. rewrite H2, H1, Er. done.
Qed.

(** ** Running the store operations *)

Lemma run_update r f s R :
  routers s !! r = Some R →
  update r f s = (Ok tt, mkHeap (<[r := f R]> (routers s)) (env s)).
Proof. intros E. unfold update. by rewrite E. Qed.

Lemma run_alloc s :
  alloc s = (Ok (length (routers s)), mkHeap (routers s ++ [zeroRouter]) (env s)).
Proof. reflexivity. Qed.

Lemma run_throw {A} e s : (throw e : M Handler A) s = (Panic e, s).
Proof. reflexivity. Qed.

Ltac mrun :=
  repeat (first [rewrite run_bind | rewrite run_ret | rewrite run_alloc
                | rewrite run_throw]; cbn beta iota).

Lemma route_nil r s : route r [] s = (Ok r, s).
Proof. reflexivity. Qed.

Lemma literalPart_inv part :
  literalPart part = true → varPart part = None ∧ String.eqb part "*" = false.
Proof.
  unfold literalPart. destruct (varPart part); [done|].
  by destruct (String.eqb part "*").
Qed.

(** ** The literal branch of [route]

    With a literal head, [route] makes sure that the node has the child,
    keeps every literal child there was ([grows]), and goes on from the
    child. *)

Lemma grows_refl s : grows s s.
Proof. by repeat split. Qed.

Lemma grows_trans s1 s2 s3 : grows s1 s2 → grows s2 s3 → grows s1 s3.
Proof.
  intros (E1 & L1 & H1) (E2 & L2 & H2). repeat split; [congruence|lia|eauto].
Qed.

Lemma litChain_grows s s1 parts : ∀ r n,
  grows s s1 → litChain s r parts n → litChain s1 r parts n.
Proof.
  induction parts as [|part rest IH]; intros r n Hg; simpl; [done|].
  intros (c & He & Hc). exists c. split; [by apply Hg|by apply IH].
Qed.

Lemma route_literal_step r part rest s R :
  literalPart part = true →
  routers s !! r = Some R →
  ∃ c s1, route r (part :: rest) s = route c rest s1
          ∧ grows s s1 ∧ litEdge s1 r part c.
Proof.
  intros [Hv Hw]%literalPart_inv Er. cbn [route]. rewrite Hv, Hw.
  pose proof (lookup_lt_Some _ _ _ Er) as Hlt.
  rewrite run_bind, (run_deref _ _ _ Er). mrun.
  destruct (matchers R) as [m|] eqn:Em.
  - mrun. destruct (m !! part) as [c|] eqn:Ec.
    + mrun. exists c, s. split; [done|]. split; [apply grows_refl|].
      by exists R, m.
    + mrun. erewrite run_update by (simpl; by apply lookup_app_l_Some).
      mrun. eexists _, _. split; [reflexivity|]. simpl.
      split; [repeat split; simpl|].
      * rewrite length_insert, length_app. lia.
      * intros r' p c' (R' & m' & E1 & E2 & E3). unfold litEdge. simpl.
        destruct (decide (r' = r)) as [->|Hne].
        -- rewrite list_lookup_insert_eq by (rewrite length_app; lia).
           eexists _, _. split; [done|]. split; [done|].
           assert (m' = m) as -> by congruence.
           rewrite lookup_insert_ne; [done|congruence].
        -- rewrite list_lookup_insert_ne by done.
           exists R', m'. by rewrite (lookup_app_l_Some _ _ _ _ E1).
      * unfold litEdge. simpl.
        rewrite list_lookup_insert_eq by (rewrite length_app; lia).
        eexists _, _. split; [done|]. split; [done|]. apply lookup_insert_eq.
  - mrun. rewrite (run_update _ _ _ _ Er). mrun.
    rewrite lookup_empty. mrun. simpl.
    erewrite run_update; last first.
    { simpl. apply lookup_app_l_Some, list_lookup_insert_eq, Hlt. }
    mrun. eexists _, _. split; [reflexivity|]. simpl.
    split; [repeat split; simpl|].
    + rewrite length_insert, length_app, length_insert. lia.
    + intros r' p c' (R' & m' & E1 & E2 & E3). unfold litEdge. simpl.
      destruct (decide (r' = r)) as [->|Hne]; [congruence|].
      rewrite list_lookup_insert_ne by done.
      exists R', m'. split; [|done].
      apply lookup_app_l_Some. by rewrite list_lookup_insert_ne.
    + unfold litEdge. simpl.
      rewrite list_lookup_insert_eq by (rewrite length_app, length_insert; lia).
      eexists _, _. split; [done|]. split; [done|]. apply lookup_insert_eq.
Qed.

Lemma route_invalid r part rest s :
  routers s !! r = None → ∃ e, route r (part :: rest) s = (Panic e, s).
Proof.
  intros Er. cbn [route]. destruct (varPart part) as [name|].
  - rewrite run_bind, (run_deref_None _ _ Er). eauto.
  - destruct (String.eqb part "*");
      rewrite run_bind, (run_deref_None _ _ Er); eauto.
Qed.

Lemma route_literal_chain parts : ∀ r s n s',
  forallb literalPart parts = true →
  route r parts s = (Ok n, s') →
  grows s s' ∧ litChain s' r parts n.
Proof.
  induction parts as [|part rest IH]; intros r s n s' Hlit Hrun.
  - rewrite route_nil in Hrun. injection Hrun as <- <-.
    split; [apply grows_refl|done].
  - simpl in Hlit. apply andb_prop in Hlit as [Hp Hrest].
    destruct (routers s !! r) as [R|] eqn:Er.
    + destruct (route_literal_step r part rest s R Hp Er) as (c & s1 & E & Hg & He).
      rewrite E in Hrun. destruct (IH c s1 n s' Hrest Hrun) as [Hg' Hc].
      split; [by eapply grows_trans|]. exists c. split; [by apply Hg'|done].
    + destruct (route_invalid r part rest s Er) as [e E]. congruence.
Qed.

(** A chain of literal children that ends in a node with a handler is
    followed by [lookup] without a look at anything else. *)
Lemma lookup_litChain parts : ∀ r s n W h,
  litChain s r parts n →
  routers s !! n = Some W →
  handler W = Some h →
  lookup r parts s = (Ok (Some h), s).
Proof.
  induction parts as [|part rest IH]; intros r s n W h Hc En Eh.
  - simpl in Hc. subst n. cbn [lookup]. rewrite run_bind, (run_deref _ _ _ En).
    by rewrite run_ret, Eh.
  - destruct Hc as (c & (R & m & Er & Em & Ec) & Hc).
    rewrite lookup_cons, run_bind, (run_deref _ _ _ Er).
    unfold orElse at 1. rewrite run_bind. unfold literalAlt.
    rewrite Em. simpl. rewrite Ec. by rewrite (IH c s n W h Hc En Eh).
Qed.

Lemma litChain_routers s1 s2 parts : ∀ r n,
  routers s1 = routers s2 → litChain s1 r parts n → litChain s2 r parts n.
Proof.
  induction parts as [|part rest IH]; intros r n E; simpl; [done|].
  intros (c & (R & m & E1 & E2 & E3) & Hc). exists c. split; [|by apply IH].
  exists R, m. by rewrite <- E.
Qed.

(** ** [FuncE] *)

Lemma FuncE_inv n f s s' :
  FuncE n f s = (Ok tt, s') →
  ∃ W, routers s !! n = Some W ∧ handler W = None
       ∧ s' = mkHeap (<[n := set_handler f W]> (routers s)) (env s).
Proof.
  unfold FuncE. rewrite run_bind. unfold deref.
  destruct (routers s !! n) as [W|] eqn:En; [|done].
  destruct (handler W) eqn:Eh; [done|].
  rewrite (run_update _ _ _ _ En). intros [= <-]. by exists W.
Qed.

Lemma set_handler_grows n f s W :
  routers s !! n = Some W →
  grows s (mkHeap (<[n := set_handler f W]> (routers s)) (env s)).
Proof.
  intros En. repeat split; simpl.
  - by rewrite length_insert.
  - intros r part c (R & m & E1 & E2 & E3). unfold litEdge. simpl.
    destruct (decide (r = n)) as [->|Hne].
    + rewrite list_lookup_insert_eq by by eapply lookup_lt_Some.
      assert (R = W) as -> by congruence. by exists (set_handler f W), m.
    + rewrite list_lookup_insert_ne by done. by exists R, m.
Qed.

(** Registration on components, then lookup on the same components. *)
Lemma register_lookup r parts h s s' :
  forallb literalPart parts = true →
  (n ← route r parts; FuncE n (Some h)) s = (Ok tt, s') →
  ∀ s'', routers s'' = routers s' →
    lookup r parts s'' = (Ok (Some h), s'').
Proof.
  intros Hlit. rewrite run_bind.
  destruct (route r parts s) as [[n|e] s1] eqn:Hroute; [|done].
  intros (W & En & Eh & ->)%FuncE_inv s'' Es.
  destruct (route_literal_chain parts r s n s1 Hlit Hroute) as [_ Hc].
  eapply (lookup_litChain parts r s'' n (set_handler (Some h) W) h); [| |done].
  - eapply litChain_routers; [symmetry; exact Es|].
    eapply litChain_grows; [|exact Hc]. by apply set_handler_grows.
  - rewrite Es. simpl. apply list_lookup_insert_eq. by eapply lookup_lt_Some.
Qed.

(** ** The variable branch of [route] *)



Lemma route_var_conflict r R name rest s :
  routers s !! r = Some R →
  varName R ≠ "" →
  name ≠ varName R →
  route r (String ":" name :: rest) s = (Panic (OverlappingVars (varName R) name), s).
Proof.
  intros Er En Hne. cbn [route varPart].
  rewrite run_bind, (run_deref _ _ _ Er). cbn beta iota.
  by rewrite !bool_decide_eq_true_2.
Qed.

(** ** The wildcard branch of [route] *)

Lemma route_wildcard_fresh r R rest s :
  routers s !! r = Some R →
  fallbackRouter R = None →
  route r ("*" :: rest) s =
  (Ok (length (routers s)),
   mkHeap (<[r := set_fallbackRouter (length (routers s)) R]> (routers s ++ [zeroRouter])%list)
     (env s)).
Proof.
  intros Er Ew. cbn [route varPart]. rewrite String.eqb_refl.
  rewrite run_bind, (run_deref _ _ _ Er). cbn beta iota. rewrite Ew. mrun.
  erewrite run_update by (simpl; by apply lookup_app_l_Some). by mrun.
Qed.

Lemma route_after_wildcard pre : ∀ r rest s,
  route r (pre ++ "*" :: rest) s = route r (pre ++ ["*"]) s.
Proof.
  induction pre as [|part pre IH]; intros r rest s; [done|].
  simpl app. cbn [route]. destruct (varPart part) as [name|].
  - apply bind_ext. intros R s1. destruct (_ && _); [done|].
    do 2 (apply bind_ext; intros ? ?). apply IH.
  - destruct (String.eqb part "*"); [done|].
    do 3 (apply bind_ext; intros ? ?). apply IH.
Qed.

(** ** Registration of a literal path completes

    On a store whose pointers are all addresses of nodes, as every store
    built from a new router is, [route] on literal components raises no
    panic, and [FuncE] on its result can only raise "duplicate handler". *)

Lemma closedRouter_mono len len' R :
  (len ≤ len')%nat → closedRouter len R → closedRouter len' R.
Proof.
  intros Hle (H1 & H2 & H3). repeat split.
  - intros m part c Em Ec. specialize (H1 m part c Em Ec). lia.
  - intros v Ev. specialize (H2 v Ev). lia.
  - intros w Ew. specialize (H3 w Ew). lia.
Qed.

Lemma closedRouter_zero len : closedRouter len (zeroRouter (Handler := Handler)).
Proof. by repeat split. Qed.

Lemma closed_lookup s r R :
  closed s → routers s !! r = Some R → closedRouter (length (routers s)) R.
Proof. intros Hc Er. exact (Forall_lookup_1 _ _ _ _ Hc Er). Qed.

Lemma closed_update s r R' :
  closed s →
  closedRouter (length (routers s)) R' →
  closed (mkHeap (<[r := R']> (routers s)) (env s)).
Proof.
  intros Hc HR. unfold closed. simpl. rewrite length_insert.
  by apply Forall_insert.
Qed.

Lemma closed_alloc_update s r R' :
  closed s →
  closedRouter (S (length (routers s))) R' →
  closed (mkHeap (<[r := R']> (routers s ++ [zeroRouter])%list) (env s)).
Proof.
  intros Hc HR. unfold closed. simpl.
  rewrite length_insert, length_app, Nat.add_1_r.
  apply Forall_insert; [|done]. apply Forall_app_2.
  - eapply Forall_impl; [exact Hc|]. intros R. apply closedRouter_mono. lia.
  - apply Forall_singleton, closedRouter_zero.
Qed.

Lemma closedRouter_set_matchers len m part R :
  closedRouter len R →
  matchers R = Some m ∨ m = ∅ →
  closedRouter (S len) (set_matchers (<[part := len]> m) R).
Proof.
  intros (H1 & H2 & H3) Hm. repeat split; simpl.
  - intros m' p c [= <-]. destruct (decide (part = p)) as [->|Hne].
    + rewrite lookup_insert_eq. intros [= <-]. lia.
    + rewrite lookup_insert_ne by done. destruct Hm as [Em| ->].
      * intros Ec. specialize (H1 m p c Em Ec). lia.
      * by rewrite lookup_empty.
  - intros v Ev. specialize (H2 v Ev). lia.
  - intros w Ew. specialize (H3 w Ew). lia.
Qed.

Lemma route_literal_step_closed r part rest s R :
  literalPart part = true →
  routers s !! r = Some R →
  closed s →
  ∃ c s1, route r (part :: rest) s = route c rest s1
          ∧ closed s1 ∧ (c < length (routers s1))%nat.
Proof.
  intros [Hv Hw]%literalPart_inv Er Hc. cbn [route]. rewrite Hv, Hw.
  pose proof (lookup_lt_Some _ _ _ Er) as Hlt.
  pose proof (closed_lookup s r R Hc Er) as HR.
  rewrite run_bind, (run_deref _ _ _ Er). mrun.
  destruct (matchers R) as [m|] eqn:Em.
  - mrun. destruct (m !! part) as [c|] eqn:Ec.
    + mrun. exists c, s. split; [done|]. split; [done|].
      destruct HR as (H1 & _). by eapply H1.
    + mrun. erewrite run_update by (simpl; by apply lookup_app_l_Some).
      mrun. eexists _, _. split; [reflexivity|]. simpl. split.
      * apply closed_alloc_update; [done|].
        apply closedRouter_set_matchers; auto.
      * simpl. rewrite length_insert, length_app. simpl. lia.
  - mrun. rewrite (run_update _ _ _ _ Er). mrun.
    rewrite lookup_empty. mrun. simpl.
    erewrite run_update; last first.
    { simpl. apply lookup_app_l_Some, list_lookup_insert_eq, Hlt. }
    mrun. eexists _, _. split; [reflexivity|]. simpl.
    rewrite !length_insert, ?length_app, ?length_insert.
    assert (Hc0 : closed (mkHeap (<[r := set_matchers ∅ R]> (routers s)) (env s))).
    { apply closed_update; [done|]. destruct HR as (H1 & H2 & H3).
      repeat split; simpl; [|done|done]. intros m p c [= <-].
      by rewrite lookup_empty. }
    split.
    + pose proof (closed_alloc_update _ r
        (set_matchers (<[part := length (routers s)]> ∅) (set_matchers ∅ R)) Hc0) as H.
      simpl in H. rewrite length_insert in H. apply H.
      pose proof (closedRouter_set_matchers (length (routers s)) ∅ part
                    (set_matchers ∅ R)) as H'.
      apply H'; [|by right]. destruct HR as (H1 & H2 & H3).
      repeat split; simpl; [|done|done]. intros m p c [= <-].
      by rewrite lookup_empty.
    + simpl. lia.
Qed.

Lemma route_literal_total parts : ∀ r s,
  forallb literalPart parts = true →
  closed s →
  (r < length (routers s))%nat →
  ∃ n s', route r parts s = (Ok n, s')
          ∧ closed s' ∧ (n < length (routers s'))%nat.
Proof.
  induction parts as [|part rest IH]; intros r s Hlit Hc Hr.
  - exists r, s. by rewrite route_nil.
  - simpl in Hlit. apply andb_prop in Hlit as [Hp Hrest].
    destruct (lookup_lt_is_Some_2 _ _ Hr) as [R Er].
    destruct (route_literal_step_closed r part rest s R Hp Er Hc)
      as (c & s1 & E & Hc1 & Hlt).
    rewrite E. by apply IH.
Qed.

Lemma FuncE_total n f s :
  (n < length (routers s))%nat →
  ∃ s', FuncE n f s = (Ok tt, s') ∨ FuncE n f s = (Panic DuplicateHandler, s').
Proof.
  intros [W En]%lookup_lt_is_Some_2. unfold FuncE.
  rewrite run_bind, (run_deref _ _ _ En). cbn beta iota.
  destruct (handler W).
  - exists s. by right.
  - rewrite (run_update _ _ _ _ En). eexists. by left.
Qed.

Lemma Register_literal_total r p h s :
  forallb literalPart (strings_Split "/" p) = true →
  closed s →
  (r < length (routers s))%nat →
  ∃ s', Register r (String "/" p) h s = (Ok tt, s')
        ∨ Register r (String "/" p) h s = (Panic DuplicateHandler, s').
Proof.
  intros Hlit Hc Hr. unfold Register, Route. rewrite run_bind.
  destruct (route_literal_total _ r s Hlit Hc Hr) as (n & s1 & -> & _ & Hn).
  by apply FuncE_total.
Qed.

Lemma newRouter_closed : closed (newRouter (Handler := Handler)).
Proof. apply Forall_singleton, closedRouter_zero. Qed.

(** * The claims *)

(** C1 (amended).  For every path that begins with ["/"] and has no
    variable and no wildcard component, and every handler [h]: once [h] is
    registered at the path ([Route] followed by [FuncE], neither
    panicking), looking the path up returns [h] and writes nothing, so a
    capture map that was empty is still empty; from [ServeHTTP], whose map
    is fresh, the map stays empty. *)
Theorem Register_lookupPath r p h s s' :
  forallb literalPart (strings_Split "/" p) = true →
  Register r (String "/" p) h s = (Ok tt, s') →
  lookupPath r (String "/" p) s' = (Ok (Some h), s')
  ∧ ServeHTTP r (String "/" p) s' = (Ok (Some h), mkHeap (routers s') (Some ∅)).
Proof.
  intros Hlit Hreg. unfold Register, Route in Hreg.
  pose proof (register_lookup r _ h s s' Hlit Hreg) as Hlk.
  unfold ServeHTTP, lookupPath. simpl Ascii.eqb. cbn iota. split; by apply Hlk.
Qed.

(** C2.  On a non-empty path, at a node [R], [lookup] tries the literal
    child, then the variable child, then the wildcard child: a handler
    from the literal child is the answer, in the state the literal
    attempt left; the variable child is tried from that state only when
    the literal attempt gave no handler, and its handler is then the
    answer; the wildcard child is consulted only when both gave none; and
    with no wildcard child either, the node reports no match. *)
Theorem lookup_precedence r R seg rest s :
  routers s !! r = Some R →
  (∀ h s1,
     literalAlt R seg rest s = (Ok (Some h), s1) →
     lookup r (seg :: rest) s = (Ok (Some h), s1))
  ∧ (∀ s1 h s2,
       literalAlt R seg rest s = (Ok None, s1) →
       variableAlt R seg rest s1 = (Ok (Some h), s2) →
       lookup r (seg :: rest) s = (Ok (Some h), s2))
  ∧ (∀ s1 s2,
       literalAlt R seg rest s = (Ok None, s1) →
       variableAlt R seg rest s1 = (Ok None, s2) →
       lookup r (seg :: rest) s = wildcardAlt R (seg :: rest) s2)
  ∧ (∀ s1 s2,
       literalAlt R seg rest s = (Ok None, s1) →
       variableAlt R seg rest s1 = (Ok None, s2) →
       fallbackRouter R = None →
       lookup r (seg :: rest) s = (Ok None, s2)).
Proof.
  intros Er. rewrite lookup_cons, run_bind, (run_deref _ _ _ Er).
  unfold orElse. rewrite run_bind. repeat split.
  - intros h s1 ->. done.
  - intros s1 h s2 -> E2. by rewrite run_bind, E2.
  - intros s1 s2 -> E2. by rewrite run_bind, E2.
  - intros s1 s2 -> E2 Ew. rewrite run_bind, E2. unfold wildcardAlt. by rewrite Ew.
Qed.

(** C3.  When the literal and the variable alternative have given no
    handler at a node that has a wildcard child [w], [lookup] binds ["*"]
    to the remaining components joined with ["/"] and answers with the
    handler field of [w], whatever children [w] has and without a change
    to the store of nodes; one empty remaining component joins to the
    empty string. *)
Theorem lookup_wildcard r R seg rest s s1 s2 w W m :
  routers s !! r = Some R →
  literalAlt R seg rest s = (Ok None, s1) →
  variableAlt R seg rest s1 = (Ok None, s2) →
  fallbackRouter R = Some w →
  routers s !! w = Some W →
  env s2 = Some m →
  lookup r (seg :: rest) s =
    (Ok (handler W),
     mkHeap (routers s) (Some (<["*" := strings_Join (seg :: rest) "/"]> m)))
  ∧ strings_Join [""] "/" = "".
Proof.
  intros Er E1 E2 Ew EW Em. split; [|done].
  pose proof (literalAlt_routers R seg rest s) as H1. rewrite E1 in H1.
  pose proof (variableAlt_routers R seg rest s1) as H2. rewrite E2 in H2.
  simpl in H1, H2.
  rewrite lookup_cons, run_bind, (run_deref _ _ _ Er).
  unfold orElse. rewrite run_bind, E1, run_bind, E2.
  unfold wildcardAlt. rewrite Ew, run_bind. unfold env_set. rewrite Em.
  rewrite run_bind. unfold deref. simpl. rewrite H2, H1, EW. done.
Qed.

(** C4 (amended).  On an exhausted path the call of [lookup] at a node
    answers with the handler field of that node, so it succeeds exactly
    when the node has a handler; the wildcard child of that node plays no
    part, and the store of nodes and the capture map are as before.  On
    a new router with ["/static/*"] registered, the path ["/static"] is
    answered with no handler and no panic.  The wildcard child of the
    node above is consulted, as at any node that still holds a
    component: when the literal child for the last component has no
    handler and the variable alternative gives none, the node answers
    with its wildcard child's handler and binds ["*"] to that
    component. *)
Theorem lookup_exhausted :
  (∀ r R s,
     routers s !! r = Some R →
     lookup r [] s = (Ok (handler R), s)
     ∧ (is_Some (handler R) ↔ ∃ h, lookup r [] s = (Ok (Some h), s)))
  ∧ (∀ h, ∃ s',
       Register 0 "/static/*" h newRouter = (Ok tt, s')
       ∧ ServeHTTP 0 "/static" s' = (Ok None, mkHeap (routers s') (Some ∅)))
  ∧ (∀ r R seg c (C : Router Handler) s s2 w W (m : gmap string string),
       routers s !! r = Some R →
       matchers R ≫= (.!! seg) = Some c →
       routers s !! c = Some C →
       handler C = None →
       variableAlt R seg [] s = (Ok None, s2) →
       fallbackRouter R = Some w →
       routers s !! w = Some W →
       env s2 = Some m →
       lookup c [] s = (Ok None, s)
       ∧ lookup r [seg] s
         = (Ok (handler W), mkHeap (routers s) (Some (<["*" := seg]> m)))).
Proof.
  assert (Hnil : ∀ r R s, routers s !! r = Some R →
                          lookup r [] s = (Ok (handler R), s)).
  { intros r R s Er. cbn [lookup]. by rewrite run_bind, (run_deref _ _ _ Er). }
  split; [|split].
  - intros r R s Er. split; [by apply Hnil|]. rewrite (Hnil r R s Er). split.
    + intros [h ->]. by exists h.
    + intros [h [=]]. by exists h.
  - intros h. eexists. split; by vm_compute.
  - intros r R seg c C s s2 w W m Er Elit Ec Eh Evar Ew EW Em.
    pose proof (Hnil c C s Ec) as Hc. rewrite Eh in Hc. split; [done|].
    pose proof (variableAlt_routers R seg [] s) as H2. rewrite Evar in H2.
    simpl in H2.
    rewrite lookup_cons, run_bind, (run_deref _ _ _ Er).
    unfold orElse. rewrite run_bind. unfold literalAlt at 1. rewrite Elit, Hc.
    rewrite run_bind, Evar.
    unfold wildcardAlt. rewrite Ew, run_bind. unfold env_set. rewrite Em.
    rewrite run_bind. unfold deref. simpl. by rewrite H2, EW.
Qed.

(** C5.  With an empty head component the variable alternative is left
    out at every node: [lookup] goes from the literal child straight to
    the wildcard child.  On a new router with ["/foo/:id"] registered,
    ["/foo/bar"] is answered with the handler and ["id"] bound to
    ["bar"], and ["/foo/"] is answered with no handler and an empty
    capture map. *)
Theorem lookup_empty_segment :
  (∀ r rest s,
     lookup r ("" :: rest) s =
     (R ← deref r;
      orElse (literalAlt R "" rest) (wildcardAlt R ("" :: rest))) s)
  ∧ (∀ h, ∃ s',
       Register 0 "/foo/:id" h newRouter = (Ok tt, s')
       ∧ ServeHTTP 0 "/foo/bar" s'
         = (Ok (Some h), mkHeap (routers s') (Some {["id" := "bar"]}))
       ∧ ServeHTTP 0 "/foo/" s' = (Ok None, mkHeap (routers s') (Some ∅))).
Proof.
  split.
  - intros r rest s. rewrite lookup_cons. apply bind_ext. intros R s1.
    unfold orElse. apply bind_ext. intros [h|] s2; [done|].
    unfold variableAlt. rewrite decide_True by done. by mrun.
  - intros h. eexists. repeat split; by vm_compute.
Qed.

(** C6.  What [route] does where the claim fails: on a new router,
    registering ["/foo/:"] and then ["/foo/:other"] raises no panic; the
    second call returns the variable child made by the first, and the
    node keeps the empty name.  (With a non-empty stored name the
    conflict is detected, see [route_var_conflict].) *)
Theorem route_empty_name_then_other :
  ∃ n s1,
    Route 0 "/foo/:" (newRouter (Handler := Handler)) = (Ok n, s1)
    ∧ Route 0 "/foo/:other" s1 = (Ok n, s1)
    ∧ ∃ R, routers s1 !! 1 = Some R ∧ varName R = "" ∧ varRouter R = Some n.
Proof.
  eexists _, _. split; [by vm_compute|]. split; [by vm_compute|].
  eexists. by vm_compute.
Qed.

(** C7 (amended).  A path with components after a ["*"] component is
    accepted, and those components are ignored: [route] does on it
    exactly what it does on the path cut after the ["*"]; at a node
    without a wildcard child it returns the new wildcard child, a zero
    node with no children, whatever follows the ["*"]. *)
Theorem route_ignores_after_wildcard :
  (∀ r pre rest s,
     route r (pre ++ "*" :: rest) s = route r (pre ++ ["*"]) s)
  ∧ (∀ r R rest s,
       routers s !! r = Some R →
       fallbackRouter R = None →
       ∃ s',
         route r ("*" :: rest) s = (Ok (length (routers s)), s')
         ∧ routers s' !! r = Some (set_fallbackRouter (length (routers s)) R)
         ∧ routers s' !! length (routers s) = Some zeroRouter
         ∧ length (routers s') = S (length (routers s))).
Proof.
  split; [intros; apply route_after_wildcard|].
  intros r R rest s Er Ew. rewrite (route_wildcard_fresh _ _ _ _ Er Ew).
  pose proof (lookup_lt_Some _ _ _ Er) as Hlt.
  eexists. split; [done|]. simpl. repeat split.
  - apply list_lookup_insert_eq. rewrite length_app. lia.
  - rewrite list_lookup_insert_ne by lia.
    rewrite lookup_app_r by done. by rewrite Nat.sub_diag.
  - rewrite length_insert, length_app. simpl. lia.
Qed.

(** C8.  A capture written for a variable child that then fails stays in
    the map.  On a new router with ["/foo/:id/x"] and ["/foo/*"]
    registered, the lookup of ["/foo/bar/y"] tries the variable child of
    ["foo"], which binds ["id"] to ["bar"] and finds no handler, and is
    then answered by the wildcard child with both ["id"] and ["*"] in
    the capture map. *)
Theorem lookup_keeps_abandoned_capture (h1 h2 : Handler) :
  ∃ s' R,
    (Register 0 "/foo/:id/x" h1;; Register 0 "/foo/*" h2) newRouter = (Ok tt, s')
    ∧ routers s' !! 1 = Some R
    ∧ variableAlt R "bar" ["y"] (mkHeap (routers s') (Some ∅))
      = (Ok None, mkHeap (routers s') (Some {["id" := "bar"]}))
    ∧ ServeHTTP 0 "/foo/bar/y" s'
      = (Ok (Some h2),
         mkHeap (routers s') (Some (<["*" := "bar/y"]> {["id" := "bar"]}))).
Proof.
  eexists _, _. split; [by vm_compute|]. split; [by vm_compute|].
  split; by vm_compute.
Qed.

(** C9.  [lookup] never changes the store of nodes: for every node
    address, path and state, the nodes after the call, whether it
    returned or panicked, are the nodes before it; the same holds from
    [lookupPath] and [ServeHTTP].  The capture map is the only other
    component of the state. *)
Theorem lookup_frame r path p s :
  routers (lookup r path s).2 = routers s
  ∧ routers (lookupPath r p s).2 = routers s
  ∧ routers (ServeHTTP r p s).2 = routers s.
Proof.
  split; [apply lookup_routers|].
  unfold ServeHTTP, lookupPath.
  destruct p as [|c p']; [done|].
  destruct (Ascii.eqb c "/"); [|done].
  split; by rewrite lookup_routers.
Qed.


(** * Further properties of the code *)

(** ** Composition of [route] *)

Lemma bind_assoc {A B C} (m : M Handler A) (f : A → M Handler B)
    (g : B → M Handler C) s :
  ((m ≫= f) ≫= g) s = (m ≫= λ a, f a ≫= g) s.
Proof.
  rewrite !run_bind. destruct (m s) as [[a|e] s1]; [|done]. by rewrite run_bind.
Qed.

Lemma not_wildcard_cons part rest :
  "*" ∉ part :: rest → String.eqb part "*" = false ∧ "*" ∉ rest.
Proof.
  intros H. apply not_elem_of_cons in H as [H1 H2]. split; [|done].
  apply String.eqb_neq. congruence.
Qed.

Lemma route_app p1 : ∀ r p2 s,
  "*" ∉ p1 →
  route r (p1 ++ p2) s = (route r p1 ≫= λ n, route n p2) s.
Proof.
  induction p1 as [|part rest IH]; intros r p2 s Hw; [done|].
  apply not_wildcard_cons in Hw as [Hp Hrest].
  simpl app. cbn [route]. rewrite Hp. destruct (varPart part) as [name|].
  - rewrite bind_assoc. apply bind_ext. intros R s1.
    destruct (_ && _); [done|].
    rewrite bind_assoc. apply bind_ext. intros R' s2.
    rewrite bind_assoc. apply bind_ext. intros v s3. by apply IH.
  - rewrite bind_assoc. apply bind_ext. intros R s1.
    rewrite bind_assoc. apply bind_ext. intros m s2.
    rewrite bind_assoc. apply bind_ext. intros c s3. by apply IH.
Qed.

(** ** [strings.Split] and [strings.Join] *)

Lemma strings_Split_nonempty sep str : strings_Split sep str ≠ [].
Proof.
  destruct str as [|c str]; [done|]. simpl.
  destruct (Ascii.eqb c sep); [done|]. by destruct (strings_Split sep str).
Qed.

Lemma strings_Split_app sep a b :
  strings_Split sep (a +:+ String sep b)
  = (strings_Split sep a ++ strings_Split sep b)%list.
Proof.
  induction a as [|c a IH]; simpl.
  - by rewrite Ascii.eqb_refl.
  - destruct (Ascii.eqb c sep); [by rewrite IH|].
    rewrite IH. pose proof (strings_Split_nonempty sep a).
    by destruct (strings_Split sep a).
Qed.

Lemma strings_Join_Split str : strings_Join (strings_Split "/" str) "/" = str.
Proof.
  induction str as [|c str IH]; [done|]. cbn [strings_Split].
  pose proof (strings_Split_nonempty "/" str) as Hne.
  destruct (Ascii.eqb c "/") eqn:Ec.
  - apply Ascii.eqb_eq in Ec as ->.
    destruct (strings_Split "/" str) as [|x xs]; [done|].
    by rewrite <- IH.
  - destruct (strings_Split "/" str) as [|x xs]; [done|].
    destruct xs as [|y ys]; by rewrite <- IH.
Qed.

Lemma Route_parts r (p : string) s :
  Route r p s = route r (strings_Split "/" (stripSlash p)) s.
Proof. reflexivity. Qed.

(** [r.Route(a).Route(b)] is [r.Route(a + "/" + b)] (with the slash that
    [b] may begin with taken off), as the package documentation says, for
    a non-empty [a] without a ["*"] component: same node, same state, and
    the same panic if one is raised. *)
Theorem Route_Route r a b s :
  a ≠ "" →
  "*" ∉ strings_Split "/" (stripSlash a) →
  Route r (a +:+ String "/" (stripSlash b)) s = (n ← Route r a; Route n b) s.
Proof.
  intros Ha Hw. rewrite Route_parts.
  assert (E : stripSlash (a +:+ String "/" (stripSlash b))
              = stripSlash a +:+ String "/" (stripSlash b)).
  { destruct a as [|c a']; [done|]. simpl.
    destruct c as [[] [] [] [] [] [] [] []]; reflexivity. }
  rewrite E, strings_Split_app, route_app by done. reflexivity.
Qed.

(** ** What registration keeps *)

Lemma nodeLe_refl R : nodeLe R R.
Proof. split; [intros m part c Em Ec; by exists m|intros v Ev; done]. Qed.

Lemma nodeLe_trans R1 R2 R3 : nodeLe R1 R2 → nodeLe R2 R3 → nodeLe R1 R3.
Proof.
  intros [A1 B1] [A2 B2]. split.
  - intros m part c Em Ec. destruct (A1 m part c Em Ec) as (m' & Em' & Ec').
    by apply (A2 m' part c).
  - intros v Ev. destruct (B1 v Ev) as [Ev' En']. destruct (B2 v Ev') as [Ev'' En''].
    split; [done|congruence].
Qed.

Lemma storeLe_refl s : storeLe s s.
Proof. intros r R Er. exists R. split; [done|apply nodeLe_refl]. Qed.

Lemma storeLe_trans s1 s2 s3 : storeLe s1 s2 → storeLe s2 s3 → storeLe s1 s3.
Proof.
  intros H1 H2 r R Er. destruct (H1 r R Er) as (R' & Er' & Hle).
  destruct (H2 r R' Er') as (R'' & Er'' & Hle'). exists R''.
  split; [done|by eapply nodeLe_trans].
Qed.

Lemma storeLe_intro s s1 r R R' :
  routers s !! r = Some R →
  routers s1 !! r = Some R' →
  nodeLe R R' →
  (∀ r', r' ≠ r → (r' < length (routers s))%nat → routers s1 !! r' = routers s !! r') →
  storeLe s s1.
Proof.
  intros Er Er' Hle Hother r0 R0 Er0. destruct (decide (r0 = r)) as [->|Hne].
  - exists R'. split; [done|]. by injection (eq_trans (eq_sym Er) Er0) as <-.
  - exists R0. split; [|apply nodeLe_refl].
    rewrite Hother; [done|done|by eapply lookup_lt_Some].
Qed.

Lemma storeLe_routers s s1 s1' :
  routers s1 = routers s1' → storeLe s s1 → storeLe s s1'.
Proof. intros E H r R Er. rewrite <- E. by apply H. Qed.

Lemma partEdge_storeLe s s1 r part c :
  storeLe s s1 → partEdge s r part c → partEdge s1 r part c.
Proof.
  intros Hle. unfold partEdge. destruct (varPart part) as [name|].
  - intros (R & Er & Ev & En). destruct (Hle r R Er) as (R' & Er' & _ & HB).
    destruct (HB c Ev) as [Ev' En']. exists R'. rewrite En'. done.
  - intros [Hp (R & m & Er & Em & Ec)]. split; [done|].
    destruct (Hle r R Er) as (R' & Er' & HA & _).
    destruct (HA m part c Em Ec) as (m' & Em' & Ec'). by exists R', m'.
Qed.

Lemma routeChain_storeLe s s1 parts : ∀ r n,
  storeLe s s1 → routeChain s r parts n → routeChain s1 r parts n.
Proof.
  induction parts as [|part rest IH]; intros r n Hle; simpl; [done|].
  intros (c & He & Hc). exists c. split; [by eapply partEdge_storeLe|by apply IH].
Qed.

(** A component other than ["*"] either raises the variable conflict or
    goes on from the child for it, which is there from then on. *)
Lemma route_step r part rest s n s' :
  String.eqb part "*" = false →
  route r (part :: rest) s = (Ok n, s') →
  ∃ c s1, route c rest s1 = (Ok n, s') ∧ storeLe s s1 ∧ partEdge s1 r part c.
Proof.
  intros Hw Hrun. destruct (routers s !! r) as [R|] eqn:Er; last first.
  { destruct (route_invalid r part rest s Er) as [e E]. congruence. }
  pose proof (lookup_lt_Some _ _ _ Er) as Hlt.
  revert Hrun. cbn [route]. unfold partEdge. rewrite Hw.
  destruct (varPart part) as [name|] eqn:Hv.
  - rewrite run_bind, (run_deref _ _ _ Er). cbn beta iota.
    destruct (bool_decide (varName R ≠ "") && bool_decide (name ≠ varName R))
      eqn:Hcond; [done|].
    assert (Hname : varName R = "" ∨ varName R = name).
    { apply andb_false_iff in Hcond as [H|H]; apply bool_decide_eq_false in H.
      - left. by destruct (decide (varName R = "")).
      - right. by destruct (decide (name = varName R)). }
    rewrite run_bind, (run_deref _ _ _ Er). cbn beta iota.
    destruct (varRouter R) as [v|] eqn:Ev.
    + mrun. intros Hrun. exists v, s. split; [done|]. split; [apply storeLe_refl|].
      by exists R.
    + mrun. erewrite run_update by (simpl; by apply lookup_app_l_Some).
      mrun. simpl. intros Hrun. eexists _, _. split; [exact Hrun|]. simpl.
      assert (Er' : (<[r := set_var name (length (routers s)) R]>
                       (routers s ++ [zeroRouter])%list) !! r
                    = Some (set_var name (length (routers s)) R)).
      { apply list_lookup_insert_eq. rewrite length_app. lia. }
      split.
      * eapply (storeLe_intro s _ r R); [done|exact Er'| |].
        -- split; [intros m p c Em Ec; by exists m|]. intros v Ev'. congruence.
        -- intros r' Hne Hr'. simpl. rewrite list_lookup_insert_ne by done.
           by apply lookup_app_l.
      * eexists. split; [exact Er'|]. split; [done|]. by right.
  - rewrite run_bind, (run_deref _ _ _ Er). mrun.
    assert (Hp : part ≠ "*") by (by apply String.eqb_neq).
    destruct (matchers R) as [m|] eqn:Em.
    + mrun. destruct (m !! part) as [c|] eqn:Ec.
      * mrun. intros Hrun. exists c, s. split; [done|].
        split; [apply storeLe_refl|]. split; [done|]. by exists R, m.
      * mrun. erewrite run_update by (simpl; by apply lookup_app_l_Some).
        mrun. simpl. intros Hrun. eexists _, _. split; [exact Hrun|]. simpl.
        assert (Er' : (<[r := set_matchers (<[part := length (routers s)]> m) R]>
                         (routers s ++ [zeroRouter])%list) !! r
                      = Some (set_matchers (<[part := length (routers s)]> m) R)).
        { apply list_lookup_insert_eq. rewrite length_app. lia. }
        split.
        -- eapply (storeLe_intro s _ r R); [done|exact Er'| |].
           ++ split; [|done]. intros m0 p c Em0 Ec0. eexists. split; [done|].
              assert (m0 = m) as -> by congruence.
              rewrite lookup_insert_ne; [done|congruence].
           ++ intros r' Hne Hr'. simpl. rewrite list_lookup_insert_ne by done.
              by apply lookup_app_l.
        -- split; [done|]. eexists _, _. split; [exact Er'|]. split; [done|].
           apply lookup_insert_eq.
    + mrun. rewrite (run_update _ _ _ _ Er). mrun.
      rewrite lookup_empty. mrun. simpl.
      erewrite run_update; last first.
      { simpl. apply lookup_app_l_Some, list_lookup_insert_eq, Hlt. }
      mrun. simpl. rewrite !length_insert. intros Hrun.
      eexists _, _. split; [exact Hrun|]. simpl.
      set (X := set_matchers (<[part := length (routers s)]> ∅) (set_matchers ∅ R)).
      assert (Er' : (<[r := X]> (<[r := set_matchers ∅ R]> (routers s) ++ [zeroRouter])%list)
                      !! r = Some X).
      { apply list_lookup_insert_eq. rewrite length_app, length_insert. lia. }
      split.
      * eapply (storeLe_intro s _ r R); [done|exact Er'| |].
        -- split; [|done]. intros m0 p c Em0. congruence.
        -- intros r' Hne Hr'. simpl. rewrite list_lookup_insert_ne by done.
           rewrite lookup_app_l by (by rewrite length_insert).
           by rewrite list_lookup_insert_ne.
      * split; [done|]. eexists _, _. split; [exact Er'|]. split; [done|].
        apply lookup_insert_eq.
Qed.

Lemma route_routeChain parts : ∀ r s n s',
  "*" ∉ parts →
  route r parts s = (Ok n, s') →
  storeLe s s' ∧ routeChain s' r parts n.
Proof.
  induction parts as [|part rest IH]; intros r s n s' Hw Hrun.
  - rewrite route_nil in Hrun. injection Hrun as <- <-.
    split; [apply storeLe_refl|done].
  - apply not_wildcard_cons in Hw as [Hp Hrest].
    destruct (route_step r part rest s n s' Hp Hrun) as (c & s1 & E & Hle & He).
    destruct (IH c s1 n s' Hrest E) as [Hle' Hc].
    split; [by eapply storeLe_trans|]. exists c.
    split; [by eapply partEdge_storeLe|done].
Qed.

(** Along a chain of children that are there, [route] changes nothing. *)
Lemma routeChain_route parts : ∀ r s n,
  routeChain s r parts n → route r parts s = (Ok n, s).
Proof.
  induction parts as [|part rest IH]; intros r s n; simpl routeChain.
  - intros ->. apply route_nil.
  - intros (c & He & Hc). specialize (IH c s n Hc). revert He.
    unfold partEdge. cbn [route]. destruct (varPart part) as [name|].
    + intros (R & Er & Ev & En).
      rewrite run_bind, (run_deref _ _ _ Er). cbn beta iota.
      replace (bool_decide (varName R ≠ "") && bool_decide (name ≠ varName R))
        with false.
      * rewrite run_bind, (run_deref _ _ _ Er). cbn beta iota. rewrite Ev. by mrun.
      * destruct En as [En|En]; rewrite En; [done|].
        rewrite (bool_decide_eq_false_2 (name ≠ name)) by auto.
        by rewrite andb_false_r.
    + intros [Hp (R & m & Er & Em & Ec)].
      apply String.eqb_neq in Hp. rewrite Hp.
      rewrite run_bind, (run_deref _ _ _ Er). cbn beta iota. rewrite Em. mrun.
      rewrite Ec. by mrun.
Qed.

(** Asking for the same path again gives the same node and changes
    nothing, for a path without a ["*"] component. *)
Theorem Route_idempotent r (p : string) s n s' :
  "*" ∉ strings_Split "/" (stripSlash p) →
  Route r p s = (Ok n, s') →
  Route r p s' = (Ok n, s').
Proof.
  rewrite !Route_parts. intros Hw Hrun.
  destruct (route_routeChain _ r s n s' Hw Hrun) as [_ Hc].
  by apply routeChain_route.
Qed.

Lemma set_handler_storeLe n f s W :
  routers s !! n = Some W →
  storeLe s (mkHeap (<[n := set_handler f W]> (routers s)) (env s)).
Proof.
  intros En. eapply (storeLe_intro s _ n W); [done| | |].
  - simpl. apply list_lookup_insert_eq. by eapply lookup_lt_Some.
  - split; [intros m part c Em Ec; by exists m|done].
  - intros r' Hne _. simpl. by rewrite list_lookup_insert_ne.
Qed.

(** A second handler at a path that has one is refused with "duplicate
    handler", and the state stays as it was. *)
Theorem Register_twice r (p : string) h h' s s' :
  "*" ∉ strings_Split "/" (stripSlash p) →
  Register r p h s = (Ok tt, s') →
  Register r p h' s' = (Panic DuplicateHandler, s').
Proof.
  intros Hw. unfold Register. rewrite !run_bind, !Route_parts.
  destruct (route r _ s) as [[n|e] s1] eqn:Hroute; [|done].
  intros (W & En & Eh & ->)%FuncE_inv.
  destruct (route_routeChain _ r s n s1 Hw Hroute) as [_ Hc].
  rewrite (routeChain_route _ r _ n);
    [|eapply routeChain_storeLe; [by apply set_handler_storeLe|done]].
  set (s' := mkHeap _ _).
  assert (En' : routers s' !! n = Some (set_handler (Some h) W)).
  { simpl. apply list_lookup_insert_eq. by eapply lookup_lt_Some. }
  unfold FuncE. by rewrite run_bind, (run_deref _ _ _ En').
Qed.



(** ** What a lookup writes does not depend on the capture map *)

Implicit Types (rs : list (Router Handler)) (m : gmap string string).

Lemma writeAll_app m ws1 ws2 :
  writeAll m (ws1 ++ ws2)%list = writeAll (writeAll m ws1) ws2.
Proof. apply foldl_app. Qed.

Lemma writeAll_lookup ws : ∀ (m1 m2 : gmap string string) k,
  m1 !! k = m2 !! k → writeAll m1 ws !! k = writeAll m2 ws !! k.
Proof.
  induction ws as [|[k0 v0] ws IH]; intros m1 m2 k E; [done|].
  simpl. apply IH. destruct (decide (k0 = k)) as [->|Hne].
  - by rewrite !lookup_insert_eq.
  - by rewrite !lookup_insert_ne.
Qed.

Lemma writeAll_idem ws : ∀ m, writeAll (writeAll m ws) ws = writeAll m ws.
Proof.
  induction ws as [|[k v] ws IH] using rev_ind; intros m; [done|].
  rewrite !writeAll_app. simpl. rewrite <- (IH m) at 2.
  apply map_eq. intros j. destruct (decide (k = j)) as [->|Hne].
  - by rewrite !lookup_insert_eq.
  - rewrite !lookup_insert_ne by done. apply writeAll_lookup.
    by rewrite lookup_insert_ne.
Qed.

Lemma uniform_ext {A} (c c' : M Handler A) rs :
  (∀ s, c s = c' s) → uniform c' rs → uniform c rs.
Proof.
  intros E (res & ws & H & Hnil). exists res, ws.
  split; [intros m|]; by rewrite E.
Qed.

Lemma uniform_ret {A} (a : A) rs : uniform (mret a : M Handler A) rs.
Proof. by exists (Ok a), []. Qed.

Lemma uniform_bind {A B} (c : M Handler A) (f : A → M Handler B) rs :
  uniform c rs → (∀ a, uniform (f a) rs) → uniform (c ≫= f) rs.
Proof.
  intros (res & ws & Hc & Hnil) Hf. destruct res as [a|e].
  - destruct (Hf a) as (res' & ws' & Hfa & Hfnil). exists res', (ws ++ ws')%list.
    split.
    + intros m. by rewrite run_bind, Hc, Hfa, writeAll_app.
    + rewrite run_bind, Hnil. destruct ws; [by rewrite Hfnil|done].
  - exists (Panic e), ws. split.
    + intros m. by rewrite run_bind, Hc.
    + rewrite run_bind, Hnil. by destruct ws.
Qed.

Lemma uniform_deref r rs : uniform (deref r) rs.
Proof.
  destruct (rs !! r) as [R|] eqn:Er.
  - exists (Ok R), []. split; [intros m|]; by apply run_deref.
  - exists (Panic NilDeref), []. split; [intros m|]; by apply run_deref_None.
Qed.

Lemma uniform_env_set (k val : string) rs : uniform (env_set k val) rs.
Proof. by exists (Ok tt), [(k, val)]. Qed.

Lemma lookup_uniform path : ∀ r rs, uniform (lookup r path) rs.
Proof.
  induction path as [|seg rest IH]; intros r rs.
  - cbn [lookup]. apply uniform_bind; [apply uniform_deref|].
    intros R. apply uniform_ret.
  - eapply uniform_ext; [intros s; apply lookup_cons|].
    apply uniform_bind; [apply uniform_deref|]. intros R.
    apply uniform_bind.
    { unfold literalAlt. destruct (matchers R ≫= (.!! seg)); [apply IH|apply uniform_ret]. }
    intros [h|]; [apply uniform_ret|]. apply uniform_bind.
    { unfold variableAlt. case_decide; [apply uniform_ret|].
      destruct (varRouter R) as [v|]; [|apply uniform_ret].
      apply uniform_bind; [apply uniform_env_set|]. intros _. apply IH. }
    intros [h|]; [apply uniform_ret|]. unfold wildcardAlt.
    destruct (fallbackRouter R) as [w|]; [|apply uniform_ret].
    apply uniform_bind; [apply uniform_env_set|]. intros _.
    apply uniform_bind; [apply uniform_deref|]. intros W. apply uniform_ret.
Qed.

(** The answer of [lookup] does not depend on what the capture map
    holds, and looking the same path up again with the map the first
    lookup left gives the same answer and leaves the map as it is. *)
Theorem lookup_again r path rs m1 :
  (∀ m2, (lookup r path (mkHeap rs (Some m2))).1
         = (lookup r path (mkHeap rs (Some m1))).1)
  ∧ lookup r path (lookup r path (mkHeap rs (Some m1))).2
    = lookup r path (mkHeap rs (Some m1)).
Proof.
  destruct (lookup_uniform path r rs) as (res & ws & H & _). split.
  - intros m2. by rewrite !H.
  - rewrite H. simpl. by rewrite H, writeAll_idem.
Qed.

(** With a nil capture map, as the tests pass, [lookup] gives what it
    gives with a capture map when that lookup writes nothing, and panics
    on the first write otherwise; the state is unchanged either way. *)
Theorem lookup_nil_map r path rs :
  ∃ res ws,
    (∀ m, lookup r path (mkHeap rs (Some m))
          = (res, mkHeap rs (Some (writeAll m ws))))
    ∧ lookup r path (mkHeap rs None)
      = (match ws with [] => res | _ :: _ => Panic NilMapWrite end, mkHeap rs None).
Proof. apply lookup_uniform. Qed.

Lemma lookupPath_routers r (p : string) s :
  routers (lookupPath r p s).2 = routers s.
Proof.
  unfold lookupPath. destruct p as [|c p']; [done|].
  destruct (Ascii.eqb c "/"); [apply lookup_routers|done].
Qed.

(** Serving the same path again gives the same handler and the same
    captures, whatever capture map the state held. *)
Theorem ServeHTTP_again r (p : string) s :
  ServeHTTP r p (ServeHTTP r p s).2 = ServeHTTP r p s.
Proof. unfold ServeHTTP. by rewrite lookupPath_routers. Qed.

(** ** Stores built by registration have no dangling pointer *)

Lemma closedRouter_set_var len name R :
  closedRouter len R → closedRouter (S len) (set_var name len R).
Proof.
  intros (H1 & H2 & H3). repeat split; simpl.
  - intros m0 part c Em Ec. specialize (H1 m0 part c Em Ec). lia.
  - intros v [= <-]. lia.
  - intros w Ew. specialize (H3 w Ew). lia.
Qed.

Lemma closedRouter_set_fallbackRouter len R :
  closedRouter len R → closedRouter (S len) (set_fallbackRouter len R).
Proof.
  intros (H1 & H2 & H3). repeat split; simpl.
  - intros m0 part c Em Ec. specialize (H1 m0 part c Em Ec). lia.
  - intros v Ev. specialize (H2 v Ev). lia.
  - intros w [= <-]. lia.
Qed.

Lemma route_closed parts : ∀ r s,
  closed s →
  (r < length (routers s))%nat →
  closed (route r parts s).2
  ∧ ∀ n, (route r parts s).1 = Ok n → (n < length (routers (route r parts s).2))%nat.
Proof.
  induction parts as [|part rest IH]; intros r s Hc Hr.
  - rewrite route_nil. simpl. split; [done|]. by intros n [= <-].
  - destruct (lookup_lt_is_Some_2 _ _ Hr) as [R Er].
    pose proof (closed_lookup s r R Hc Er) as HR.
    destruct (literalPart part) eqn:Hlit.
    { destruct (route_literal_step_closed r part rest s R Hlit Er Hc)
        as (c & s1 & -> & Hc1 & Hlt). by apply IH. }
    cbn [route]. unfold literalPart in Hlit.
    destruct (varPart part) as [name|].
    + rewrite run_bind, (run_deref _ _ _ Er). cbn beta iota.
      destruct (_ && _); [by split|].
      rewrite run_bind, (run_deref _ _ _ Er). cbn beta iota.
      destruct (varRouter R) as [v|] eqn:Ev.
      * mrun. apply IH; [done|]. destruct HR as (_ & H2 & _). by apply H2.
      * mrun. erewrite run_update by (simpl; by apply lookup_app_l_Some).
        mrun. simpl. apply IH.
        -- apply closed_alloc_update; [done|]. by apply closedRouter_set_var.
        -- simpl. rewrite length_insert, length_app. simpl. lia.
    + destruct (String.eqb part "*"); [|done].
      rewrite run_bind, (run_deref _ _ _ Er). cbn beta iota.
      destruct (fallbackRouter R) as [w|] eqn:Ew; [by split|].
      mrun. erewrite run_update by (simpl; by apply lookup_app_l_Some).
      mrun. simpl. split.
      * apply closed_alloc_update; [done|]. by apply closedRouter_set_fallbackRouter.
      * intros n [= <-]. rewrite length_insert, length_app. simpl. lia.
Qed.

Lemma FuncE_closed n f s : closed s → closed (FuncE n f s).2.
Proof.
  intros Hc. unfold FuncE. rewrite run_bind. unfold deref.
  destruct (routers s !! n) as [W|] eqn:En; [|done].
  destruct (handler W); [done|]. rewrite (run_update _ _ _ _ En). simpl.
  apply closed_update; [done|]. exact (closed_lookup s n W Hc En).
Qed.

Lemma Register_closed r (p : string) h s :
  closed s → (r < length (routers s))%nat → closed (Register r p h s).2.
Proof.
  intros Hc Hr. unfold Register. rewrite run_bind, Route_parts.
  destruct (route_closed (strings_Split "/" (stripSlash p)) r s Hc Hr) as [H1 H2].
  destruct (route r _ s) as [[n|e] s1]; [|done]. by apply FuncE_closed.
Qed.

(** [Route], [FuncE] and [lookupPath] keep every pointer of the store
    the address of a node, also when they panic, and the node that
    [Route] returns is in the store. *)
Theorem registration_closed r (p : string) f s :
  closed s →
  (r < length (routers s))%nat →
  closed (Route r p s).2
  ∧ (∀ n, (Route r p s).1 = Ok n → (n < length (routers (Route r p s).2))%nat)
  ∧ closed (FuncE r f s).2
  ∧ closed (lookupPath r p s).2.
Proof.
  intros Hc Hr. rewrite Route_parts.
  destruct (route_closed (strings_Split "/" (stripSlash p)) r s Hc Hr) as [H1 H2].
  split; [done|]. split; [done|]. split; [by apply FuncE_closed|].
  unfold closed. by rewrite lookupPath_routers.
Qed.

(** On such a store a lookup with a capture map never panics: it
    answers with a handler or with none. *)
Lemma lookup_no_panic path : ∀ r rs m,
  closed (mkHeap rs None) →
  (r < length rs)%nat →
  ∃ o m', lookup r path (mkHeap rs (Some m)) = (Ok o, mkHeap rs (Some m')).
Proof.
  induction path as [|seg rest IH]; intros r rs m Hc Hr.
  - destruct (lookup_lt_is_Some_2 _ _ Hr) as [R Er].
    exists (handler R), m. cbn [lookup].
    by rewrite run_bind, (run_deref r (mkHeap rs (Some m)) R Er).
  - destruct (lookup_lt_is_Some_2 _ _ Hr) as [R Er].
    destruct (closed_lookup (mkHeap rs None) r R Hc Er) as (H1 & H2 & H3).
    simpl in H1, H2, H3.
    rewrite lookup_cons, run_bind, (run_deref r (mkHeap rs (Some m)) R Er).
    unfold orElse at 1. rewrite run_bind.
    assert (Hlit : ∃ o1 m1, literalAlt R seg rest (mkHeap rs (Some m))
                            = (Ok o1, mkHeap rs (Some m1))).
    { unfold literalAlt. destruct (matchers R) as [mm|] eqn:Em; [|by exists None, m].
      simpl. destruct (mm !! seg) as [c|] eqn:Ec; [|by exists None, m].
      apply IH; [done|]. by eapply H1. }
    destruct Hlit as (o1 & m1 & ->). destruct o1 as [h|]; [by eexists _, _|].
    unfold orElse. rewrite run_bind.
    assert (Hvar : ∃ o2 m2, variableAlt R seg rest (mkHeap rs (Some m1))
                            = (Ok o2, mkHeap rs (Some m2))).
    { unfold variableAlt. case_decide; [by exists None, m1|].
      destruct (varRouter R) as [v|] eqn:Ev; [|by exists None, m1].
      rewrite run_bind. unfold env_set. simpl. apply IH; [done|]. by apply H2. }
    destruct Hvar as (o2 & m2 & ->). destruct o2 as [h|]; [by eexists _, _|].
    unfold wildcardAlt. destruct (fallbackRouter R) as [w|] eqn:Ew; [|by eexists _, _].
    rewrite run_bind. unfold env_set. simpl.
    destruct (lookup_lt_is_Some_2 rs w (H3 w eq_refl)) as [W EW].
    rewrite run_bind, (run_deref w (mkHeap rs _) W EW). by eexists _, _.
Qed.

(** Serving a path that begins with a slash never panics on a store
    without dangling pointers: the outcome is a handler or the absence
    value, with the nodes as they were. *)
Theorem ServeHTTP_no_panic r (p : string) s :
  closed s →
  (r < length (routers s))%nat →
  ∃ o m', ServeHTTP r (String "/" p) s = (Ok o, mkHeap (routers s) (Some m')).
Proof.
  intros Hc Hr. unfold ServeHTTP, lookupPath. simpl Ascii.eqb. cbn iota.
  by apply lookup_no_panic.
Qed.

(** ** A sufficient condition for a match, with its captures *)

Lemma Matches_routers s s0 r path n m m' :
  routers s = routers s0 → Matches s r path n m m' → Matches s0 r path n m m'.
Proof.
  intros E H. induction H.
  - constructor.
  - eapply Matches_literal; [|done].
    destruct H as (R & mm & E1 & E2 & E3). exists R, mm. by rewrite <- E.
  - eapply Matches_variable; [by rewrite <- E|done..].
  - eapply Matches_wildcard; [by rewrite <- E|done..].
Qed.

Lemma lookup_along s r path n m m' W h :
  Matches s r path n m m' →
  routers s !! n = Some W →
  handler W = Some h →
  lookup r path (mkHeap (routers s) (Some m))
  = (Ok (Some h), mkHeap (routers s) (Some m')).
Proof.
  intros H En Eh. induction H as [r m|r seg rest c n m m' He H IH
    |r R seg rest v n m m' Er Elit Hseg Ev H IH|r R seg rest w m Er Elit Hvar Ew].
  - cbn [lookup]. rewrite run_bind.
    rewrite (run_deref r (mkHeap (routers s) (Some m)) W En). by rewrite run_ret, Eh.
  - destruct He as (R & mm & Er & Em & Ec).
    rewrite lookup_cons, run_bind, (run_deref r (mkHeap (routers s) (Some m)) R Er).
    unfold orElse at 1. rewrite run_bind. unfold literalAlt. rewrite Em. simpl.
    rewrite Ec. by rewrite (IH En).
  - rewrite lookup_cons, run_bind, (run_deref r (mkHeap (routers s) (Some m)) R Er).
    unfold orElse. rewrite run_bind. unfold literalAlt. rewrite Elit. mrun.
    unfold variableAlt. rewrite decide_False by done. rewrite Ev.
    rewrite run_bind. unfold env_set. simpl. by rewrite (IH En).
  - rewrite lookup_cons, run_bind, (run_deref r (mkHeap (routers s) (Some m)) R Er).
    unfold orElse. rewrite run_bind. unfold literalAlt. rewrite Elit. mrun.
    assert (Hv : variableAlt R seg rest (mkHeap (routers s) (Some m))
                 = (Ok None, mkHeap (routers s) (Some m))).
    { unfold variableAlt. destruct Hvar as [->|Hv]; [done|].
      rewrite Hv. by case_decide. }
    rewrite Hv. unfold wildcardAlt. rewrite Ew, run_bind. unfold env_set. simpl.
    rewrite run_bind, (run_deref w (mkHeap (routers s) _) W En). by rewrite run_ret, Eh.
Qed.

(** Where the path leads to a node through literal children, variable
    children at nodes without a literal child for the component, and
    possibly a wildcard child at a node without a literal and without a
    usable variable child, [lookup] answers with the handler of that node
    when it has one, and the capture map holds each variable under the
    name stored in its node and ["*"] for the wildcard. *)
Theorem lookup_Matches s r path n m m' W h :
  Matches s r path n m m' →
  routers s !! n = Some W →
  handler W = Some h →
  lookup r path (mkHeap (routers s) (Some m))
  = (Ok (Some h), mkHeap (routers s) (Some m')).
Proof. apply lookup_along. Qed.

Lemma Matches_litChain s parts : ∀ r n path n' m m',
  litChain s r parts n →
  Matches s n path n' m m' →
  Matches s r (parts ++ path) n' m m'.
Proof.
  induction parts as [|part rest IH]; intros r n path n' m m'; simpl litChain.
  - by intros ->.
  - intros (c & He & Hc) H. simpl app. eapply Matches_literal; [done|]. by eapply IH.
Qed.

(** Below a chain of literal children, a node whose only child is a
    wildcard child with a handler answers every path [p] with that
    handler and binds ["*"] to [p] itself, byte for byte. *)
Theorem lookup_wildcard_remainder s r pre n R w W h (p : string) m :
  litChain s r pre n →
  routers s !! n = Some R →
  matchers R = None →
  varRouter R = None →
  fallbackRouter R = Some w →
  routers s !! w = Some W →
  handler W = Some h →
  lookup r (pre ++ strings_Split "/" p) (mkHeap (routers s) (Some m))
  = (Ok (Some h), mkHeap (routers s) (Some (<["*" := p]> m))).
Proof.
  intros Hc En Em Ev Ew EW Eh.
  apply (lookup_along s r _ w m _ W h); [|done..].
  eapply Matches_litChain; [done|].
  pose proof (strings_Join_Split p) as HJ.
  pose proof (strings_Split_nonempty "/" p) as Hne.
  destruct (strings_Split "/" p) as [|seg rest]; [done|].
  rewrite <- HJ. eapply Matches_wildcard; [done| |by right|done].
  by rewrite Em.
Qed.

(** ** A router with one literal route answers that path only *)

Lemma strings_Split_inj (p q : string) :
  strings_Split "/" p = strings_Split "/" q → p = q.
Proof.
  intros E. rewrite <- (strings_Join_Split p), <- (strings_Join_Split q).
  by rewrite E.
Qed.

Lemma sole_routers s s0 parts : ∀ r n,
  routers s = routers s0 → sole s r parts n → sole s0 r parts n.
Proof.
  induction parts as [|part rest IH]; intros r n E; simpl.
  - intros (-> & R & H). split; [done|]. exists R. by rewrite <- E.
  - intros (R & c & Er & H1 & H2 & H3 & H4 & Hs). exists R, c.
    rewrite <- E. repeat split; try done. by apply IH.
Qed.

Lemma lookup_sole parts : ∀ r s n W path,
  sole s r parts n →
  routers s !! n = Some W →
  lookup r path s = (Ok (if decide (path = parts) then handler W else None), s).
Proof.
  induction parts as [|part ps IH]; intros r s n W path; simpl sole.
  - intros (-> & R & Er & Em & Ev & Ew) En.
    assert (R = W) as -> by (by injection (eq_trans (eq_sym Er) En)).
    destruct path as [|seg rest].
    + cbn [lookup]. by rewrite run_bind, (run_deref _ _ _ En).
    + rewrite lookup_cons, run_bind, (run_deref _ _ _ En).
      unfold orElse, literalAlt, variableAlt, wildcardAlt.
      rewrite Em, Ev, Ew. simpl. mrun. case_decide; by mrun.
  - intros (R & c & Er & Em & Ev & Ew & Eh & Hs) En.
    destruct path as [|seg rest].
    + cbn [lookup]. by rewrite run_bind, (run_deref _ _ _ Er), run_ret, Eh.
    + rewrite lookup_cons, run_bind, (run_deref _ _ _ Er).
      assert (Hrest : (orElse (variableAlt R seg rest) (wildcardAlt R (seg :: rest))) s
                      = (Ok None, s)).
      { unfold orElse, variableAlt, wildcardAlt. rewrite Ev, Ew.
        case_decide; by mrun. }
      unfold orElse at 1. rewrite run_bind. unfold literalAlt. rewrite Em. simpl.
      destruct (decide (seg = part)) as [->|Hne].
      * rewrite lookup_singleton_eq, (IH c s n W rest Hs En).
        destruct (decide (rest = ps)) as [->|Hne'].
        -- rewrite decide_True by done. destruct (handler W); [done|apply Hrest].
        -- rewrite decide_False by congruence. apply Hrest.
      * rewrite lookup_singleton_ne by done. rewrite run_ret.
        rewrite decide_False by congruence. apply Hrest.
Qed.

Lemma route_sole parts : ∀ r s,
  forallb literalPart parts = true →
  routers s !! r = Some zeroRouter →
  ∃ n s', route r parts s = (Ok n, s')
          ∧ sole s' r parts n
          ∧ routers s' !! n = Some zeroRouter
          ∧ (∀ r', r' ≠ r → (r' < length (routers s))%nat →
               routers s' !! r' = routers s !! r')
          ∧ (length (routers s) ≤ length (routers s'))%nat.
Proof.
  induction parts as [|part rest IH]; intros r s Hlit Er.
  - exists r, s. rewrite route_nil. repeat split; try done. by exists zeroRouter.
  - simpl in Hlit. apply andb_prop in Hlit as [Hp Hrest].
    apply literalPart_inv in Hp as [Hv Hw].
    pose proof (lookup_lt_Some _ _ _ Er) as Hlt.
    cbn [route]. rewrite Hv, Hw.
    rewrite run_bind, (run_deref _ _ _ Er). mrun.
    change (matchers zeroRouter) with (@None (gmap string loc)). cbn iota.
    mrun. rewrite (run_update _ _ _ _ Er). mrun.
    rewrite lookup_empty. mrun. simpl.
    erewrite run_update; last first.
    { simpl. apply lookup_app_l_Some, list_lookup_insert_eq, Hlt. }
    mrun. simpl. rewrite !length_insert.
    set (X := set_matchers (Handler := Handler) (<[part := length (routers s)]> ∅)
                (set_matchers ∅ zeroRouter)).
    set (s1 := mkHeap _ _).
    assert (Er1 : routers s1 !! r = Some X).
    { simpl. apply list_lookup_insert_eq. rewrite length_app, length_insert. lia. }
    assert (Ec1 : routers s1 !! length (routers s) = Some zeroRouter).
    { simpl. rewrite list_lookup_insert_ne by lia.
      rewrite lookup_app_r by (by rewrite length_insert).
      by rewrite length_insert, Nat.sub_diag. }
    assert (Hlen1 : length (routers s1) = S (length (routers s))).
    { simpl. rewrite length_insert, length_app, length_insert. simpl. lia. }
    destruct (IH (length (routers s)) s1 Hrest Ec1)
      as (n & s' & Hrun & Hs & En & Hframe & Hlen).
    exists n, s'. split; [done|]. split; [|split; [done|split]].
    + exists X, (length (routers s)). rewrite Hframe by lia.
      repeat split; done.
    + intros r' Hne Hr'. rewrite Hframe by lia. simpl.
      rewrite list_lookup_insert_ne by done.
      rewrite lookup_app_l by (by rewrite length_insert).
      by rewrite list_lookup_insert_ne.
    + lia.
Qed.

Lemma sole_set_handler parts : ∀ r s n W f,
  sole s r parts n →
  routers s !! n = Some W →
  matchers W = None →
  sole (mkHeap (<[n := set_handler f W]> (routers s)) (env s)) r parts n.
Proof.
  induction parts as [|part rest IH]; intros r s n W f; simpl sole.
  - intros (-> & R & Er & Em & Ev & Ew) En EmW. split; [done|].
    assert (R = W) as -> by (by injection (eq_trans (eq_sym Er) En)).
    exists (set_handler f W). split; [|done]. simpl.
    apply list_lookup_insert_eq. by eapply lookup_lt_Some.
  - intros (R & c & Er & Em & Ev & Ew & Eh & Hs) En EmW.
    assert (Hne : n ≠ r).
    { intros ->. assert (R = W) as -> by (by injection (eq_trans (eq_sym Er) En)).
      congruence. }
    exists R, c. simpl. rewrite list_lookup_insert_ne by done.
    repeat split; try done. by apply IH.
Qed.

(** On a node without children and without a handler, registering [h]
    at a path of literal components completes, and afterwards serving
    any path that begins with a slash finds [h] for that very path and
    nothing for every other path; the capture map stays empty. *)
Theorem Register_sole r (p : string) h s :
  forallb literalPart (strings_Split "/" p) = true →
  routers s !! r = Some zeroRouter →
  ∃ s', Register r (String "/" p) h s = (Ok tt, s')
        ∧ ∀ q : string,
            ServeHTTP r (String "/" q) s'
            = (Ok (if decide (q = p) then Some h else None),
               mkHeap (routers s') (Some ∅)).
Proof.
  intros Hlit Er. unfold Register. rewrite run_bind, Route_parts. simpl stripSlash.
  destruct (route_sole _ r s Hlit Er) as (n & s1 & -> & Hs & En & _ & _).
  unfold FuncE. rewrite run_bind, (run_deref _ _ _ En).
  change (handler zeroRouter) with (@None Handler). cbn iota.
  rewrite (run_update _ _ _ _ En). eexists. split; [reflexivity|].
  intros q. unfold ServeHTTP, lookupPath. simpl Ascii.eqb. cbn iota.
  set (s2 := mkHeap (routers (mkHeap _ _)) (Some ∅)).
  assert (Hs2 : sole s2 r (strings_Split "/" p) n).
  { eapply sole_routers; [|by apply (sole_set_handler _ r s1 n zeroRouter (Some h))].
    done. }
  assert (En2 : routers s2 !! n = Some (set_handler (Some h) zeroRouter)).
  { simpl. apply list_lookup_insert_eq. by eapply lookup_lt_Some. }
  etrans; [exact (lookup_sole _ r s2 n _ (strings_Split "/" q) Hs2 En2)|].
  simpl handler. destruct (decide (q = p)) as [->|Hne].
  - by rewrite decide_True.
  - rewrite decide_False; [done|]. intros E. by apply Hne, strings_Split_inj.
Qed.

(** ** Errors of registration and of serving *)

Lemma partEdge_not_wildcard s r part c : partEdge s r part c → part ≠ "*".
Proof.
  unfold partEdge. destruct part as [|a part]; [done|].
  destruct (varPart (String a part)) eqn:Hv; [|by intros [? _]].
  intros _ [= -> ->]. done.
Qed.

Lemma routeChain_not_wildcard s parts : ∀ r n,
  routeChain s r parts n → "*" ∉ parts.
Proof.
  induction parts as [|part rest IH]; intros r n; simpl.
  - intros _. apply not_elem_of_nil.
  - intros (c & He & Hc). apply not_elem_of_cons. split.
    + intros E. by apply (partEdge_not_wildcard s r part c He).
    + by eapply IH.
Qed.

(** Wherever a node is in the tree, once it has a variable child under
    a non-empty name, a path that reaches it and goes on with a variable
    of another name is refused with "overlapping vars", whatever follows,
    and the state stays as it was. *)
Theorem route_overlapping_vars s r pre n R other rest :
  routeChain s r pre n →
  routers s !! n = Some R →
  varName R ≠ "" →
  other ≠ varName R →
  route r (pre ++ String ":" other :: rest) s
  = (Panic (OverlappingVars (varName R) other), s).
Proof.
  intros Hc En Hname Hother.
  rewrite route_app by (by eapply routeChain_not_wildcard).
  rewrite run_bind, (routeChain_route _ _ _ _ Hc).
  by apply route_var_conflict.
Qed.

(** What serving a path can do on a store without dangling pointers: the
    empty path panics on [path[0]], a path that does not begin with a
    slash panics with "bad path", and every other path is answered, with
    a handler or with none; the nodes are as they were in all three
    cases. *)
Theorem ServeHTTP_outcome r (p : string) s :
  closed s →
  (r < length (routers s))%nat →
  match p with
  | EmptyString =>
      ServeHTTP r p s = (Panic IndexOutOfRange, mkHeap (routers s) (Some ∅))
  | String c _ =>
      if Ascii.eqb c "/"
      then ∃ o m', ServeHTTP r p s = (Ok o, mkHeap (routers s) (Some m'))
      else ServeHTTP r p s = (Panic BadPath, mkHeap (routers s) (Some ∅))
  end.
Proof.
  intros Hc Hr. destruct p as [|c p']; [done|].
  destruct (Ascii.eqb c "/") eqn:Ec.
  - apply Ascii.eqb_eq in Ec as ->. by apply ServeHTTP_no_panic.
  - unfold ServeHTTP, lookupPath. by rewrite Ec.
Qed.

End Properties.

(** * The claims on the routers of the tests *)

(** The test suite of the repository, run on the model. *)

Example TestEmpty :
  lookupPath 0 "/" (newRouter (Handler := string)) = (Ok None, newRouter)
  ∧ lookupPath 0 "/foo" (newRouter (Handler := string)) = (Ok None, newRouter).
Proof. split; reflexivity. Qed.

Example TestBasic :
  let s := (Register 0 "/" F1 newRouter).2 in
  lookupPath 0 "/" s = (Ok (Some F1), s) ∧ lookupPath 0 "/foo" s = (Ok None, s).
Proof. split; by vm_compute. Qed.

Example TestDirTwoEntries :
  let s := ((Register 0 "/foo/" F1;; Register 0 "/foo/bar" F2) newRouter).2 in
  lookupPath 0 "/" s = (Ok None, s)
  ∧ lookupPath 0 "/foo" s = (Ok None, s)
  ∧ lookupPath 0 "/foo/" s = (Ok (Some F1), s)
  ∧ lookupPath 0 "/foo/bar" s = (Ok (Some F2), s)
  ∧ lookupPath 0 "/foo/baz" s = (Ok None, s).
Proof. repeat split; by vm_compute. Qed.

Example TestVar :
  let s := ((Register 0 "/foo/:id" F1;; Register 0 "/foo/:id/edit" F2) newRouter).2 in
  ServeHTTP 0 "/foo/bar" s = (Ok (Some F1), mkHeap (routers s) (Some {["id" := "bar"]}))
  ∧ ServeHTTP 0 "/foo/bar/xyz" s = (Ok None, mkHeap (routers s) (Some {["id" := "bar"]}))
  ∧ ServeHTTP 0 "/foo/bar/edit" s
    = (Ok (Some F2), mkHeap (routers s) (Some {["id" := "bar"]})).
Proof. repeat split; by vm_compute. Qed.

Example TestFallback :
  lookupPath 0 "/" fallbackTree = (Ok None, fallbackTree)
  ∧ lookupPath 0 "/foo" fallbackTree = (Ok None, fallbackTree)
  ∧ ServeHTTP 0 "/foo/" fallbackTree
    = (Ok (Some F1), mkHeap (routers fallbackTree) (Some {["*" := ""]}))
  ∧ ServeHTTP 0 "/foo/bar" fallbackTree
    = (Ok (Some F1), mkHeap (routers fallbackTree) (Some {["*" := "bar"]})).
Proof. repeat split; by vm_compute. Qed.

(** A node that still holds a component consults its wildcard child
    after its literal child has failed on the exhausted rest. *)
Example parent_wildcard_after_child :
  let s := ((Register 0 "/*" F1;; Register 0 "/static/x" F2) newRouter).2 in
  ServeHTTP 0 "/static" s
  = (Ok (Some F1), mkHeap (routers s) (Some {["*" := "static"]})).
Proof. by vm_compute. Qed.

(** Nodes registered beneath a wildcard child, as in
    [r.Route("/a/*").Route("b").FuncE(F1)], are never entered. *)
Example below_wildcard_unreachable :
  let s := ((n ← Route 0 "/a/*"; b ← Route n "b"; FuncE b (Some F1)) newRouter).2 in
  ServeHTTP 0 "/a/x/b" s = (Ok None, mkHeap (routers s) (Some {["*" := "x/b"]})).
Proof. by vm_compute. Qed.

(** C1, instance: ["/foo/bar"] on a new router. *)
Lemma Register_lookupPath_witness :
  let s' := (Register 0 "/foo/bar" F1 newRouter).2 in
  forallb literalPart (strings_Split "/" "foo/bar") = true
  ∧ Register 0 "/foo/bar" F1 newRouter = (Ok tt, s')
  ∧ lookupPath 0 "/foo/bar" s' = (Ok (Some F1), s')
  ∧ ServeHTTP 0 "/foo/bar" s' = (Ok (Some F1), mkHeap (routers s') (Some ∅)).
Proof.
  intros s'.
  assert (H1 : forallb literalPart (strings_Split "/" "foo/bar") = true)
    by reflexivity.
  assert (H2 : Register 0 "/foo/bar" F1 newRouter = (Ok tt, s'))
    by (vm_compute; reflexivity).
  split; [exact H1|]. split; [exact H2|].
  exact (Register_lookupPath 0 "foo/bar" F1 newRouter s' H1 H2).
Defined.

(** C1 as stated fails for a path without the leading slash: ["foo"] has
    one literal component and [F1] is registered at it, and the lookup of
    ["foo"] panics with "bad path". *)
Lemma lookupPath_without_slash :
  forallb literalPart (strings_Split "/" "foo") = true
  ∧ ∃ s', Register 0 "foo" F1 newRouter = (Ok tt, s')
          ∧ lookupPath 0 "foo" s' = (Panic BadPath, s')
          ∧ lookupPath 0 "foo" s' ≠ (Ok (Some F1), s').
Proof.
  split; [reflexivity|]. eexists. split; [by vm_compute|].
  split; [by vm_compute|]. by vm_compute.
Qed.

(** The node ["foo"] of [overlapTree]: a variable child ["id"] and a
    wildcard child, no literal child. *)
Lemma overlapTree_foo :
  routers overlapTree !! 1 = Some (mkRouter None "id" (Some 2) None (Some 4)).
Proof. reflexivity. Qed.

(** C2, instance: at ["foo"] of [overlapTree] with ["bar"; "y"] left, the
    literal alternative gives nothing, the variable alternative binds
    ["id"] and gives nothing, and the answer is the wildcard
    alternative's. *)
Lemma lookup_precedence_witness :
  let R := mkRouter None "id" (Some 2) None (Some 4) in
  let s2 := mkHeap (routers overlapTree) (Some {["id" := "bar"]}) in
  routers overlapTree !! 1 = Some R
  ∧ literalAlt R "bar" ["y"] overlapTree = (Ok None, overlapTree)
  ∧ variableAlt R "bar" ["y"] overlapTree = (Ok None, s2)
  ∧ lookup 1 ["bar"; "y"] overlapTree = wildcardAlt R ["bar"; "y"] s2.
Proof.
  intros R s2.
  assert (H1 : literalAlt R "bar" ["y"] overlapTree = (Ok None, overlapTree))
    by reflexivity.
  assert (H2 : variableAlt R "bar" ["y"] overlapTree = (Ok None, s2))
    by (vm_compute; reflexivity).
  split; [exact overlapTree_foo|]. split; [exact H1|]. split; [exact H2|].
  destruct (lookup_precedence 1 R "bar" ["y"] overlapTree overlapTree_foo)
    as (_ & _ & H & _).
  exact (H overlapTree s2 H1 H2).
Defined.

(** C3, instance: the same lookup, answered by the wildcard child of
    ["foo"] with ["*"] bound to ["bar/y"]. *)
Lemma lookup_wildcard_witness :
  let R := mkRouter None "id" (Some 2) None (Some 4) in
  let W := mkRouter None "" None (Some F2) None in
  let s2 := mkHeap (routers overlapTree) (Some {["id" := "bar"]}) in
  routers overlapTree !! 1 = Some R
  ∧ literalAlt R "bar" ["y"] overlapTree = (Ok None, overlapTree)
  ∧ variableAlt R "bar" ["y"] overlapTree = (Ok None, s2)
  ∧ routers overlapTree !! 4 = Some W
  ∧ lookup 1 ["bar"; "y"] overlapTree
    = (Ok (Some F2),
       mkHeap (routers overlapTree) (Some (<["*" := "bar/y"]> {["id" := "bar"]}))).
Proof.
  intros R W s2.
  assert (H1 : literalAlt R "bar" ["y"] overlapTree = (Ok None, overlapTree))
    by reflexivity.
  assert (H2 : variableAlt R "bar" ["y"] overlapTree = (Ok None, s2))
    by (vm_compute; reflexivity).
  assert (H4 : routers overlapTree !! 4 = Some W) by reflexivity.
  split; [exact overlapTree_foo|]. split; [exact H1|]. split; [exact H2|].
  split; [exact H4|].
  exact (proj1 (lookup_wildcard 1 R "bar" ["y"] overlapTree overlapTree s2 4 W
                  {["id" := "bar"]} overlapTree_foo H1 H2 eq_refl H4 eq_refl)).
Defined.

(** C4, instance: the node ["foo"] of [fallbackTree] has a wildcard child
    and no handler, and an exhausted path finds nothing there; in
    [besideTree] the path ["b"] from the node ["a"] is exhausted at the
    node ["b"], which has no handler, and ["a"] answers with its
    wildcard child. *)
Lemma lookup_exhausted_witness :
  let R := mkRouter (Handler := string) None "" None None (Some 2) in
  let A := mkRouter (Handler := string) (Some {["b" := 3]}) "" None None (Some 2) in
  let B := mkRouter (Handler := string) (Some {["c" := 4]}) "" None None None in
  let W := mkRouter None "" None (Some F1) None in
  (routers fallbackTree !! 1 = Some R
   ∧ lookup 1 [] fallbackTree = (Ok None, fallbackTree))
  ∧ (routers besideTree !! 1 = Some A
     ∧ matchers A ≫= (.!! "b") = Some 3
     ∧ routers besideTree !! 3 = Some B
     ∧ variableAlt A "b" [] besideTree = (Ok None, besideTree)
     ∧ routers besideTree !! 2 = Some W
     ∧ lookup 3 [] besideTree = (Ok None, besideTree)
     ∧ lookup 1 ["b"] besideTree
       = (Ok (Some F1), mkHeap (routers besideTree) (Some {["*" := "b"]}))).
Proof.
  intros R A B W.
  assert (H1 : routers fallbackTree !! 1 = Some R) by reflexivity.
  assert (G1 : routers besideTree !! 1 = Some A) by reflexivity.
  assert (G2 : matchers A ≫= (.!! "b") = Some 3) by reflexivity.
  assert (G3 : routers besideTree !! 3 = Some B) by reflexivity.
  assert (G4 : variableAlt A "b" [] besideTree = (Ok None, besideTree))
    by reflexivity.
  assert (G5 : routers besideTree !! 2 = Some W) by reflexivity.
  split.
  - split; [exact H1|].
    exact (proj1 (proj1 lookup_exhausted 1 R fallbackTree H1)).
  - split; [exact G1|]. split; [exact G2|]. split; [exact G3|].
    split; [exact G4|]. split; [exact G5|].
    exact (proj2 (proj2 lookup_exhausted) 1 A "b" 3 B besideTree besideTree 2 W ∅
             G1 G2 G3 eq_refl G4 eq_refl G5 eq_refl).
Defined.

(** C4 as stated fails for the wildcard child of a node above: with
    ["/a/*"] and ["/a/b/c"] registered on a new router, the path
    ["/a/b"] is exhausted at the node ["b"], which has no handler, and
    is answered all the same, by the wildcard child of ["a"] with ["*"]
    bound to ["b"]. *)
Lemma ancestor_wildcard_consulted :
  litChain besideTree 0 ["a"; "b"] 3
  ∧ routers besideTree !! 3
    = Some (mkRouter (Some {["c" := 4]}) "" None None None)
  ∧ lookup 3 [] besideTree = (Ok None, besideTree)
  ∧ wildEdge besideTree 1 2
  ∧ ServeHTTP 0 "/a/b" besideTree
    = (Ok (Some F1), mkHeap (routers besideTree) (Some {["*" := "b"]}))
  ∧ ServeHTTP 0 "/a/b" besideTree
    ≠ (Ok None, mkHeap (routers besideTree) (Some ∅)).
Proof.
  split.
  { exists 1. split; [eexists _, _; split; [reflexivity|]; split; reflexivity|].
    exists 3. split; [eexists _, _; split; [reflexivity|]; split; reflexivity|].
    reflexivity. }
  split; [reflexivity|]. split; [reflexivity|].
  split; [eexists; split; reflexivity|].
  split; [by vm_compute|]. by vm_compute.
Qed.

(** C7, instance: ["*"; "b"] at the root of a new router. *)
Lemma route_ignores_after_wildcard_witness :
  routers (newRouter (Handler := string)) !! 0 = Some zeroRouter
  ∧ fallbackRouter (zeroRouter (Handler := string)) = None
  ∧ ∃ s' : heap string, route 0 ["*"; "b"] newRouter = (Ok 1, s')
          ∧ routers s' !! 0 = Some (set_fallbackRouter 1 zeroRouter)
          ∧ routers s' !! 1 = Some zeroRouter
          ∧ length (routers s') = 2.
Proof.
  split; [reflexivity|]. split; [reflexivity|].
  exact (proj2 (route_ignores_after_wildcard (Handler := string))
           0 zeroRouter ["b"] newRouter eq_refl eq_refl).
Defined.

(** C7 as stated fails: after [Route("/a/*/b")] on a new router the
    store has three nodes, the root, ["a"] and the wildcard child of
    ["a"], which is a zero node; there is no literal child ["b"] under
    the wildcard child of ["a"]. *)
Lemma Route_after_wildcard_no_child :
  Route 0 "/a/*/b" (newRouter (Handler := string)) = (Ok 2, afterWildcardTree)
  ∧ routers afterWildcardTree
    = [mkRouter (Some {["a" := 1]}) "" None None None;
       mkRouter None "" None None (Some 2);
       zeroRouter]
  ∧ routers afterWildcardTree !! 2 = Some zeroRouter
  ∧ ¬ ∃ a w b, litEdge afterWildcardTree 0 "a" a
               ∧ wildEdge afterWildcardTree a w
               ∧ litEdge afterWildcardTree w "b" b.
Proof.
  split; [by vm_compute|]. split; [by vm_compute|]. split; [by vm_compute|].
  intros (a & w & b & (R0 & m0 & E1 & E2 & E3) & (R & ER & EW)
          & (Rw & mw & E4 & E5 & E6)).
  change (routers afterWildcardTree)
    with [mkRouter (Handler := string) (Some {["a" := 1]}) "" None None None;
          mkRouter None "" None None (Some 2);
          zeroRouter] in *.
  simpl in E1. injection E1 as <-. simpl in E2. injection E2 as <-.
  assert (a = 1) as -> by (vm_compute in E3; congruence).
  simpl in ER. injection ER as <-. simpl in EW. injection EW as <-.
  simpl in E4. injection E4 as <-. discriminate E5.
Qed.


(** * The further properties on the routers of the tests *)

Lemma no_wildcard_in (l : list string) :
  bool_decide ("*" ∉ l) = true → "*" ∉ l.
Proof. apply bool_decide_eq_true_1. Qed.

(** [r.Route("user").Route("new")] and [r.Route("user/new")]. *)
Lemma Route_Route_witness :
  "user" ≠ ""
  ∧ ("*" ∉ strings_Split "/" (stripSlash "user"))
  ∧ Route 0 "user/new" (newRouter (Handler := string))
    = (n ← Route 0 "user"; Route n "new") newRouter.
Proof.
  assert (H1 : "user" ≠ "") by discriminate.
  assert (H2 : "*" ∉ strings_Split "/" (stripSlash "user"))
    by (apply no_wildcard_in; vm_compute; reflexivity).
  split; [exact H1|]. split; [exact H2|].
  exact (Route_Route (Handler := string) 0 "user" "new" newRouter H1 H2).
Defined.

(** [r.Route("/users/:username")] twice. *)
Lemma Route_idempotent_witness :
  let s' := (Route 0 "/users/:username" (newRouter (Handler := string))).2 in
  ("*" ∉ strings_Split "/" (stripSlash "/users/:username"))
  ∧ Route 0 "/users/:username" newRouter = (Ok 2, s')
  ∧ Route 0 "/users/:username" s' = (Ok 2, s').
Proof.
  intros s'.
  assert (H1 : "*" ∉ strings_Split "/" (stripSlash "/users/:username"))
    by (apply no_wildcard_in; vm_compute; reflexivity).
  assert (H2 : Route 0 "/users/:username" newRouter = (Ok 2, s'))
    by (vm_compute; reflexivity).
  split; [exact H1|]. split; [exact H2|].
  exact (Route_idempotent 0 "/users/:username" newRouter 2 s' H1 H2).
Defined.

(** [r.Route("/foo").FuncE(F1)] and then [r.Route("/foo").FuncE(F2)]. *)
Lemma Register_twice_witness :
  let s' := (Register 0 "/foo" F1 newRouter).2 in
  ("*" ∉ strings_Split "/" (stripSlash "/foo"))
  ∧ Register 0 "/foo" F1 newRouter = (Ok tt, s')
  ∧ Register 0 "/foo" F2 s' = (Panic DuplicateHandler, s').
Proof.
  intros s'.
  assert (H1 : "*" ∉ strings_Split "/" (stripSlash "/foo"))
    by (apply no_wildcard_in; vm_compute; reflexivity).
  assert (H2 : Register 0 "/foo" F1 newRouter = (Ok tt, s'))
    by (vm_compute; reflexivity).
  split; [exact H1|]. split; [exact H2|].
  exact (Register_twice 0 "/foo" F1 F2 newRouter s' H1 H2).
Defined.


(** The new router has no dangling pointer, and nor has what
    registration makes of it. *)
Lemma registration_closed_witness :
  closed (newRouter (Handler := string))
  ∧ (0 < length (routers (newRouter (Handler := string))))%nat
  ∧ closed (Route 0 "/foo/:id" (newRouter (Handler := string))).2
  ∧ closed (FuncE 0 (Some F1) newRouter).2.
Proof.
  assert (H2 : (0 < length (routers (newRouter (Handler := string))))%nat)
    by (simpl; lia).
  split; [exact newRouter_closed|]. split; [exact H2|].
  destruct (registration_closed 0 "/foo/:id" (Some F1) newRouter newRouter_closed H2)
    as (Ha & _ & Hb & _).
  split; [exact Ha|exact Hb].
Defined.

Lemma fallbackTree_closed : closed fallbackTree.
Proof. apply Register_closed; [apply newRouter_closed|simpl; lia]. Qed.

(** Serving ["/foo/bar"] on [fallbackTree]. *)
Lemma ServeHTTP_outcome_witness :
  closed fallbackTree
  ∧ (0 < length (routers fallbackTree))%nat
  ∧ ∃ o m', ServeHTTP 0 "/foo/bar" fallbackTree
            = (Ok o, mkHeap (routers fallbackTree) (Some m')).
Proof.
  assert (H2 : (0 < length (routers fallbackTree))%nat) by (vm_compute; lia).
  split; [exact fallbackTree_closed|]. split; [exact H2|].
  exact (ServeHTTP_outcome 0 "/foo/bar" fallbackTree fallbackTree_closed H2).
Defined.

(** ["/foo/bar"] on [varTree]: a literal child, then the variable child. *)
Lemma lookup_Matches_witness :
  Matches varTree 0 ["foo"; "bar"] 2 ∅ {["id" := "bar"]}
  ∧ routers varTree !! 2 = Some (mkRouter None "" None (Some F1) None)
  ∧ lookup 0 ["foo"; "bar"] (mkHeap (routers varTree) (Some ∅))
    = (Ok (Some F1), mkHeap (routers varTree) (Some {["id" := "bar"]})).
Proof.
  assert (H1 : Matches varTree 0 ["foo"; "bar"] 2 ∅ {["id" := "bar"]}).
  { eapply Matches_literal.
    - eexists _, _. split; [reflexivity|]. split; reflexivity.
    - eapply (Matches_variable varTree 1 (mkRouter None "id" (Some 2) None None));
        [reflexivity|reflexivity|discriminate|reflexivity|].
      apply Matches_nil. }
  assert (H2 : routers varTree !! 2 = Some (mkRouter None "" None (Some F1) None))
    by reflexivity.
  split; [exact H1|]. split; [exact H2|].
  exact (lookup_Matches varTree 0 ["foo"; "bar"] 2 ∅ _ _ F1 H1 H2 eq_refl).
Defined.

(** ["/foo/a/b"] on [fallbackTree]: ["*"] is bound to ["a/b"]. *)
Lemma lookup_wildcard_remainder_witness :
  litChain fallbackTree 0 ["foo"] 1
  ∧ routers fallbackTree !! 1 = Some (mkRouter None "" None None (Some 2))
  ∧ routers fallbackTree !! 2 = Some (mkRouter None "" None (Some F1) None)
  ∧ lookup 0 (["foo"] ++ strings_Split "/" "a/b")
      (mkHeap (routers fallbackTree) (Some ∅))
    = (Ok (Some F1), mkHeap (routers fallbackTree) (Some {["*" := "a/b"]})).
Proof.
  assert (H1 : litChain fallbackTree 0 ["foo"] 1).
  { exists 1. split; [|reflexivity].
    eexists _, _. split; [reflexivity|]. split; reflexivity. }
  assert (H2 : routers fallbackTree !! 1 = Some (mkRouter None "" None None (Some 2)))
    by reflexivity.
  assert (H3 : routers fallbackTree !! 2 = Some (mkRouter None "" None (Some F1) None))
    by reflexivity.
  split; [exact H1|]. split; [exact H2|]. split; [exact H3|].
  exact (lookup_wildcard_remainder fallbackTree 0 ["foo"] 1 _ 2 _ F1 "a/b" ∅
           H1 H2 eq_refl eq_refl eq_refl H3 eq_refl).
Defined.

(** ["/foo/"] alone on a new router (TestDir). *)
Lemma Register_sole_witness :
  forallb literalPart (strings_Split "/" "foo/") = true
  ∧ routers (newRouter (Handler := string)) !! 0 = Some zeroRouter
  ∧ ∃ s', Register 0 "/foo/" F1 newRouter = (Ok tt, s')
          ∧ ∀ q : string,
              ServeHTTP 0 (String "/" q) s'
              = (Ok (if decide (q = "foo/") then Some F1 else None),
                 mkHeap (routers s') (Some ∅)).
Proof.
  split; [reflexivity|]. split; [reflexivity|].
  exact (Register_sole 0 "foo/" F1 newRouter eq_refl eq_refl).
Defined.

(** ["/foo/bar"] on a new router. *)
Lemma Register_literal_total_witness :
  forallb literalPart (strings_Split "/" "foo/bar") = true
  ∧ closed (newRouter (Handler := string))
  ∧ (0 < length (routers (newRouter (Handler := string))))%nat
  ∧ ∃ s', Register 0 "/foo/bar" F1 newRouter = (Ok tt, s')
          ∨ Register 0 "/foo/bar" F1 newRouter = (Panic DuplicateHandler, s').
Proof.
  assert (H3 : (0 < length (routers (newRouter (Handler := string))))%nat)
    by (simpl; lia).
  split; [reflexivity|]. split; [exact newRouter_closed|]. split; [exact H3|].
  exact (Register_literal_total 0 "foo/bar" F1 newRouter eq_refl newRouter_closed H3).
Defined.

(** ["/foo/:id"] is registered in [varTree]; ["/foo/:other/x"] is
    refused. *)
Lemma route_overlapping_vars_witness :
  routeChain varTree 0 ["foo"] 1
  ∧ routers varTree !! 1 = Some (mkRouter None "id" (Some 2) None None)
  ∧ "id" ≠ "" ∧ "other" ≠ "id"
  ∧ route 0 ["foo"; ":other"; "x"] varTree
    = (Panic (OverlappingVars "id" "other"), varTree).
Proof.
  assert (H1 : routeChain varTree 0 ["foo"] 1).
  { exists 1. split; [|reflexivity]. split; [discriminate|].
    eexists _, _. split; [reflexivity|]. split; reflexivity. }
  assert (H2 : routers varTree !! 1 = Some (mkRouter None "id" (Some 2) None None))
    by reflexivity.
  assert (H3 : "id" ≠ "") by discriminate.
  assert (H4 : "other" ≠ "id") by discriminate.
  split; [exact H1|]. split; [exact H2|]. split; [exact H3|]. split; [exact H4|].
  exact (route_overlapping_vars varTree 0 ["foo"] 1 _ "other" ["x"] H1 H2 H3 H4).
Defined.
